(** * EnvWrap: the environment registry and the activation engine

    A shallow embedding of [main.py].  The registry directory
    [ENV_BASE_DIR] is a finite map from environment names to the files
    [<name>.json]; the pointer file [.current_env] and the process
    variable [PATH] complete the state.  Commands are state-passing
    functions that end by returning, by [typer.Exit] or by an uncaught
    Python exception.

    A string is a Python [str] without the NUL character, which
    neither a file name nor the environment of a process admits.

    The development has two layers.  The first models every command
    over registries whose files are text and whose JSON documents have
    the shape that [save] and [set_current_env] write.  The second,
    [Module Raw], models the reads of the pointer, the scan of the
    registry, the in-process activation and the listing over files of
    any content: bytes that do not decode, and JSON documents of any
    shape. *)

From Stdlib Require Import Ascii String.
From stdpp Require Import gmap strings list fin_maps.

(** ** Exceptions and fallible reads *)

(** The exceptions that the modelled code can raise. *)
Inductive exn : Set :=
| OSError
| JSONDecodeError
| TypeError
| AttributeError
| KeyError
| UnicodeDecodeError.

#[global] Instance exn_eq_dec : EqDecision exn.
Proof. solve_decision. Defined.

(** A computation that either yields a value or raises. *)
Inductive result (A : Type) : Type :=
| Ok (a : A)
| Raise (e : exn).
Arguments Ok {A} a.
Arguments Raise {A} e.

#[global] Instance result_ret : MRet result := λ A a, Ok a.
#[global] Instance result_bind : MBind result := λ A B k m,
  match m with
  | Ok a => k a
  | Raise e => Raise e
  end.

(** [try: body except (e1, e2): handler]. *)
Definition try_except {A : Type} (body : result A) (caught : list exn)
    (handler : result A) : result A :=
  match body with
  | Ok a => Ok a
  | Raise e => if decide (e ∈ caught) then handler else Raise e
  end.

(** ** Files *)

(** What a text file holds, as far as [json.loads] and [str.strip] can
    tell: only white space, text that is not JSON, or a JSON document.
    A file whose bytes do not decode is not a text file; [Raw.file]
    has a state for it. *)
Inductive text (A : Type) : Type :=
| Blank
| Garbage
| Json (doc : A).
Arguments Blank {A}.
Arguments Garbage {A}.
Arguments Json {A} doc.

(** A file that exists either cannot be opened for reading ([open]
    raises [OSError]) or yields its text. *)
Inductive file (A : Type) : Type :=
| Unreadable
| Content (t : text A).
Arguments Unreadable {A}.
Arguments Content {A} t.

(** [open(f, "r")] followed by reading, and [Path.read_text]. *)
Definition read_text {A : Type} (f : file A) : result (text A) :=
  match f with
  | Unreadable => Raise OSError
  | Content t => Ok t
  end.

(** [json.loads]. *)
Definition json_loads {A : Type} (t : text A) : result A :=
  match t with
  | Json doc => Ok doc
  | Blank | Garbage => Raise JSONDecodeError
  end.

(** [with open(f, "r") as h: json.load(h)]. *)
Definition json_load {A : Type} (f : file A) : result A :=
  t ← read_text f; json_loads t.

(** The JSON document of an environment record: an object whose field
    [name], when present, is a string and whose field [paths], when
    present, is an array of strings, as [save] writes them.  Extra
    fields are ignored by every reader.  The pointer file holds a JSON
    string, as [set_current_env] writes it.  Documents of any other
    shape ([null], a number, an array, [paths] that is not an array of
    strings) are outside this layer; [Raw.json] has them. *)
Record config : Type := Config {
  cfg_name : option string;
  cfg_paths : option (list string)
}.

(** ** [os.pathsep] and the path variable *)

Definition pathsep : ascii := ":"%char.

(** [s.split(os.pathsep)]: never empty, [''.split(':') == ['']]. *)
Fixpoint split (s : string) : list string :=
  match s with
  | EmptyString => [EmptyString]
  | String c s' =>
      if decide (c = pathsep) then EmptyString :: split s'
      else match split s' with
           | [] => [String c EmptyString]
           | w :: ws => String c w :: ws
           end
  end.

(** [os.pathsep.join(l)]. *)
Fixpoint join (l : list string) : string :=
  match l with
  | [] => EmptyString
  | [w] => w
  | w :: ws => w +:+ String pathsep (join ws)
  end.

(** ** The state of a run *)

(** What [--export-shell] leaves in the destination file: the paths of
    the union set, each stripped from [PATH] by a [sed] rule, the paths
    prepended under a not-already-present guard, and the value exported
    as [ENVWRAP_CURRENT]. *)
Record script : Type := Script {
  strip_rules : list string;
  prepend_rules : list string;
  marker : string
}.

(** [records] maps an environment name to the file that the name
    denotes, [ENV_BASE_DIR / f"{n}.json"]; a missing key is a missing
    file, and a missing directory is the empty map.  A name without a
    directory part ([plain], below) denotes a file of the registry
    directory itself, and [glob("*.json")] visits exactly these; a name
    such as [sub/x] denotes a file of a directory below it, which
    [create] makes.  Names are taken to denote distinct files: a write
    through one name leaves the files of the other names as they were.
    This holds among plain names on a file system that tells names
    apart by case, when no record file is a link to another, and the
    properties that depend on it are stated for plain names; it fails for a name such as [./t], which denotes the
    file of [t].  [pointer] is [CONFIG_FILE], [PATH]
    is [os.environ["PATH"]], [scripts] holds what [--export-shell]
    wrote, by destination; the destination is taken to be writable and
    to be neither the pointer nor a record file.  Writes and [unlink]
    succeed. *)
Record state : Type := State {
  records : gmap string (file config);
  pointer : option (file string);
  PATH : option string;
  scripts : gmap string script
}.

Definition set_records (r : gmap string (file config)) (st : state) : state :=
  State r (pointer st) (PATH st) (scripts st).
Definition set_pointer (p : option (file string)) (st : state) : state :=
  State (records st) p (PATH st) (scripts st).
Definition set_PATH (v : string) (st : state) : state :=
  State (records st) (pointer st) (Some v) (scripts st).
Definition set_script (dest : string) (sc : script) (st : state) : state :=
  State (records st) (pointer st) (PATH st) (<[dest := sc]> (scripts st)).

(** [os.environ.get("PATH", "").split(os.pathsep)]. *)
Definition current_path (st : state) : list string :=
  split (default EmptyString (PATH st)).

(** How a command ends: it returns, it raises [typer.Exit(code)], or
    an exception escapes.  [out] is what was printed up to then. *)
Inductive outcome : Type :=
| Returned (out : list string) (st : state)
| Exited (code : Z) (out : list string) (st : state)
| Uncaught (e : exn) (out : list string) (st : state).

(** Continue with [k] on the value of a read; an exception that the
    read lets through ends the command. *)
Definition lift {A : Type} (m : result A) (st : state) (k : A → outcome) : outcome :=
  match m with
  | Ok a => k a
  | Raise e => Uncaught e [] st
  end.

(** Put earlier output in front of what [o] printed. *)
Definition after (pre : list string) (o : outcome) : outcome :=
  match o with
  | Returned out st => Returned (pre ++ out) st
  | Exited code out st => Exited code (pre ++ out) st
  | Uncaught e out st => Uncaught e (pre ++ out) st
  end.

(** Run [k] when [o] returned. *)
Definition and_then (o : outcome) (k : state → outcome) : outcome :=
  match o with
  | Returned out st => after out (k st)
  | _ => o
  end.

(** ** class Env *)

Module Env.

Record t : Type := Make {
  name : string;
  env_paths : list string
}.

(** [config.get("paths", [])]. *)
Definition get_paths (cfg : config) : list string :=
  default [] (cfg_paths cfg).

(** [load]: the paths of the record when the file exists and parses,
    the empty list when reading raises one of the two caught
    exceptions, the list as it was when there is no file. *)
Definition load (self : t) (st : state) : result t :=
  match records st !! name self with
  | Some env_file =>
      try_except
        (cfg ← json_load env_file; Ok (Make (name self) (get_paths cfg)))
        [JSONDecodeError; OSError]
        (Ok (Make (name self) []))
  | None => Ok self
  end.

(** [__init__]. *)
Definition init (n : string) (st : state) : result t :=
  load (Make n []) st.

(** [save]: [json.dump] of [{"name": ..., "paths": ...}]. *)
Definition save (self : t) (st : state) : state :=
  set_records
    (<[name self := Content (Json (Config (Some (name self)) (Some (env_paths self))))]>
       (records st))
    st.

(** [list.remove]: drops the first occurrence. *)
Fixpoint remove_first (x : string) (l : list string) : list string :=
  match l with
  | [] => []
  | y :: l' => if decide (x = y) then l' else y :: remove_first x l'
  end.

Section Resolve.
(** [str(Path(path).resolve())]: pure normalisation against the
    working directory, defined for every input. *)
Variable resolve : string → string.

Definition add_path (self : t) (path : string) (st : state) : bool * t * state :=
  let abs_path := resolve path in
  if decide (abs_path ∉ env_paths self) then
    let self' := Make (name self) (env_paths self ++ [abs_path]) in
    (true, self', save self' st)
  else (false, self, st).

Definition remove_path (self : t) (path : string) (st : state) : bool * t * state :=
  let abs_path := resolve path in
  if decide (abs_path ∈ env_paths self) then
    let self' := Make (name self) (remove_first abs_path (env_paths self)) in
    (true, self', save self' st)
  else (false, self, st).
End Resolve.

End Env.

(** ** The pointer to the active environment *)

Definition get_current_env_name (st : state) : result string :=
  match pointer st with
  | Some config_file =>
      try_except (json_load config_file) [JSONDecodeError; OSError] (Ok "base")
  | None => Ok "base"
  end.

Definition set_current_env (n : string) (st : state) : state :=
  set_pointer (Some (Content (Json n))) st.

(** ** activate *)

(** The values that the parameter [export_shell] of [activate] takes.
    The command line gives [None] or the string after [--export-shell].
    The parameter's Python default is the object that
    [typer.Option(None, ...)] evaluates to, and [@app.command()]
    registers [activate] and hands it back unchanged: a plain call
    [activate(name)] runs with that object as [export_shell]. *)
Inductive export_arg : Type :=
| ExportNone
| ExportFile (dest : string)
| ExportOptionInfo.

(** [if export_shell:] — [None] and the empty string are false, any
    other object is true. *)
Definition truthy (e : export_arg) : bool :=
  match e with
  | ExportNone => false
  | ExportFile dest => bool_decide (dest ≠ EmptyString)
  | ExportOptionInfo => true
  end.

(** Whether a name has a directory part: [os.sep] occurs in it. *)
Fixpoint has_dir (n : string) : bool :=
  match n with
  | EmptyString => false
  | String c n' => bool_decide (c = "/"%char) || has_dir n'
  end.

(** A plain name denotes a file of the registry directory itself. *)
Definition plain (n : string) : Prop := has_dir n = false.

(** [ENV_BASE_DIR.glob("*.json")]: the files of the directory itself,
    not those of the directories below it. *)
Definition glob_json {A : Type} (recs : gmap string A) : list (string * A) :=
  filter (λ nf, plain nf.1) (map_to_list recs).

(** The loop over [ENV_BASE_DIR.glob("*.json")] that fills
    [all_envwrap_paths]: a file whose read raises one of the two caught
    exceptions is skipped. *)
Fixpoint collect_paths (files : list (string * file config)) (acc : gset string)
    : result (gset string) :=
  match files with
  | [] => Ok acc
  | (_, env_file) :: rest =>
      acc' ← try_except
               (cfg ← json_load env_file; Ok (acc ∪ list_to_set (Env.get_paths cfg)))
               [JSONDecodeError; OSError]
               (Ok acc);
      collect_paths rest acc'
  end.

Definition all_envwrap_paths (st : state) : result (gset string) :=
  collect_paths (glob_json (records st)) ∅.

(** [for path in env.env_paths: if path not in cleaned_path:
    cleaned_path.insert(0, path)]. *)
Definition insert_front (cleaned_path : list string) (env_paths : list string) : list string :=
  foldl (λ cleaned path, if decide (path ∉ cleaned) then path :: cleaned else cleaned)
        cleaned_path env_paths.

(** The list that the in-process branch joins into [PATH]. *)
Definition new_path_list (U : gset string) (env_paths current : list string) : list string :=
  let cleaned_path := filter (λ p, p ∉ U) current in
  insert_front cleaned_path env_paths.

(** The lines printed at the end of [activate]. *)
Definition activate_report (env : Env.t) : list string :=
  ("Activated environment: " +:+ Env.name env)
  :: match Env.env_paths env with
     | [] => []
     | paths => "Added paths to PATH:" :: map (λ p, "  - " +:+ p) paths
     end.

Definition activate (name : string) (export_shell : export_arg) (st : state) : outcome :=
  if decide (name ≠ "base" ∧ records st !! name = None) then
    Exited 1 ["Error: Environment '" +:+ name +:+ "' does not exist"] st
  else
    lift (all_envwrap_paths st) st (λ U,
    let st := set_current_env name st in
    lift (Env.init name st) st (λ env,
    if truthy export_shell then
      (* with open(export_shell, "w") as f: ... *)
      match export_shell with
      | ExportFile dest =>
          Returned (activate_report env)
            (set_script dest (Script (elements U) (Env.env_paths env) name) st)
      | ExportOptionInfo | ExportNone =>
          (* open() takes a path, not this object *)
          Uncaught TypeError [] st
      end
    else
      let cleaned_path := new_path_list U (Env.env_paths env) (current_path st) in
      Returned (activate_report env) (set_PATH (join cleaned_path) st))).

(** The list [cleaned_path] that [activate name] builds from state
    [st] on the in-process branch, when its reads succeed. *)
Definition activate_path_list (name : string) (st : state) : option (list string) :=
  match all_envwrap_paths st, Env.init name (set_current_env name st) with
  | Ok U, Ok env => Some (new_path_list U (Env.env_paths env) (current_path st))
  | _, _ => None
  end.

(** ** delete *)

Definition unlink (name : string) (st : state) : state :=
  set_records (delete name (records st)) st.

Definition delete (name : string) (st : state) : outcome :=
  if decide (name = "base") then
    Exited 1 ["Error: Cannot delete the base environment"] st
  else if decide (records st !! name = None) then
    Exited 1 ["Error: Environment '" +:+ name +:+ "' does not exist"] st
  else
    lift (get_current_env_name st) st (λ current_env_name,
    and_then
      (if decide (current_env_name = name) then
         after ["Switching to base environment before deleting '" +:+ name +:+ "'"]
               (activate "base" ExportOptionInfo st)
       else Returned [] st)
      (λ st, Returned ["Deleted environment: " +:+ name] (unlink name st))).

(** ** clone *)

(** [target_env.env_paths = source_env.env_paths] makes the two
    objects share one list; neither is used after [save], which writes
    the elements into the target's file. *)
Definition clone (source target : string) (st : state) : outcome :=
  if decide (target = "base") then
    Exited 1 ["Error: Cannot clone to base environment"] st
  else
    lift (Env.init source st) st (λ source_env,
    lift (Env.init target st) st (λ target_env,
    if decide (records st !! source = None) then
      Exited 1 ["Error: Environment '" +:+ source +:+ "' does not exist"] st
    else
      let target_env := Env.Make (Env.name target_env) (Env.env_paths source_env) in
      Returned ["Cloned environment: " +:+ source +:+ " to " +:+ target]
               (Env.save target_env st))).

(** ** list *)

Section Listing.
(** The registry directory, as [get_env_base_dir] resolved it when
    the module was loaded. *)
Variable ENV_BASE_DIR : string.

(** [ENV_BASE_DIR / f"{stem}.json"], as [print] shows it. *)
Definition env_file_path (stem : string) : string :=
  ENV_BASE_DIR +:+ "/" +:+ stem +:+ ".json".

Definition invalid_line (stem : string) : string :=
  "+ !!! Error: " +:+ env_file_path stem +:+ " is an invalid env file".

Definition name_line (current_env n : string) : string :=
  if decide (n = current_env) then "+ " +:+ n +:+ " (active)" else "+ " +:+ n.

Definition is_blank {A : Type} (t : text A) : bool :=
  match t with
  | Blank => true
  | _ => false
  end.

(** The body of the loop for one file other than [base.json]: the
    line it prints, or the exception it lets through. *)
Definition list_entry (current_env stem : string) (env_file : file config)
    : result string :=
  match read_text env_file with
  | Raise OSError => Ok (invalid_line stem)
  | Raise e => Raise e
  | Ok txt =>
      if is_blank txt then Ok (invalid_line stem)
      else
        match json_loads txt with
        | Raise JSONDecodeError => Ok (invalid_line stem)
        | Raise e => Raise e
        | Ok env_config =>
            match cfg_name env_config with
            | None => Ok (invalid_line stem)
            | Some n => Ok (name_line current_env n)
            end
        end
  end.

(** The loop over [env_dir.glob("*.json")]: the lines printed, and
    the exception that stopped the loop, if any. *)
Fixpoint list_loop (current_env : string) (files : list (string * file config))
    : list string * option exn :=
  match files with
  | [] => ([], None)
  | (stem, env_file) :: rest =>
      if decide (stem = "base") then list_loop current_env rest
      else
        match list_entry current_env stem env_file with
        | Ok line =>
            let '(lines, stop) := list_loop current_env rest in
            (line :: lines, stop)
        | Raise e => ([], Some e)
        end
  end.

(** The command [list]. *)
Definition list_command (names_only : bool) (st : state) : outcome :=
  lift (get_current_env_name st) st (λ current_env,
  if names_only then
    Returned
      ("base" :: filter (λ stem, stem ≠ "base") (map fst (map_to_list (records st))))
      st
  else
    let base_line := name_line current_env "base" in
    match list_loop current_env (map_to_list (records st)) with
    | (lines, None) => Returned (base_line :: lines) st
    | (lines, Some e) => Uncaught e (base_line :: lines) st
    end).
End Listing.

(** ** addpath and removepath *)

Section Paths.
Variable resolve : string → string.
(** [Path(path).exists()]. *)
Variable path_exists : string → bool.

Definition addpath (path : string) (st : state) : outcome :=
  if negb (path_exists path) then
    Exited 1 ["Error: Path '" +:+ path +:+ "' does not exist"] st
  else
    lift (get_current_env_name st) st (λ current_env_name,
    lift (Env.init current_env_name st) st (λ env,
    let '(added, _, st) := Env.add_path resolve env path st in
    if added then
      let abs_path := resolve path in
      Returned
        ["Added path '" +:+ abs_path +:+ "' to environment '" +:+ current_env_name +:+ "'"]
        (if decide (abs_path ∉ current_path st) then
           set_PATH (abs_path +:+ String pathsep (default EmptyString (PATH st))) st
         else st)
    else
      Returned
        ["Path '" +:+ resolve path +:+ "' already exists in environment '"
           +:+ current_env_name +:+ "'"]
        st)).

End Paths.

(** ** Sample states *)

Definition record_of (n : string) (paths : list string) : file config :=
  Content (Json (Config (Some n) (Some paths))).

Definition st_two : state :=
  State (<["t" := record_of "t" ["/a"; "/b"]]> ∅) None (Some "/usr/bin") ∅.

Definition st_active_t : state := set_current_env "t" st_two.

(** ** Notions used to state the properties *)

(** The paths that a reader obtains from a record file: those of the
    [paths] field when the file parses, none otherwise. *)
Definition readable_paths (f : file config) : list string :=
  match f with
  | Content (Json cfg) => Env.get_paths cfg
  | _ => []
  end.

Definition stored_paths (st : state) (name : string) : list string :=
  from_option readable_paths [] (records st !! name).

(** The union of the paths of every record that parses. *)
Definition union_path_set (st : state) : gset string :=
  ⋃ ((λ nf, list_to_set (readable_paths nf.2)) <$> map_to_list (records st)).

(** The set that the scan of the registry builds: the union of the
    paths of every record that parses among those that
    [glob("*.json")] visits. *)
Definition glob_path_set (st : state) : gset string :=
  ⋃ ((λ nf, list_to_set (readable_paths nf.2)) <$> glob_json (records st)).

(** [name] is "base" or has a record file. *)
Definition env_exists (st : state) (name : string) : Prop :=
  name = "base" ∨ is_Some (records st !! name).

Definition st_dev_ci : state :=
  State (<["dev" := record_of "dev" ["/opt/dev/bin"]]>
           (<["ci" := record_of "ci" ["/opt/ci/bin"]]> ∅))
        None (Some "/usr/bin:/opt/ci/bin") ∅.

Definition st_mixed : state :=
  State (<["dev" := record_of "dev" ["/opt/dev/bin"]]>
           (<["broken" := Content Garbage]>
              (<["empty" := Content Blank]>
                 (<["locked" := Unreadable]>
                    (<["anon" := Content (Json (Config None (Some ["/x"])))]> ∅)))))
        (Some (Content (Json "dev"))) (Some "/usr/bin") ∅.

(** Whether a string holds the separator [os.pathsep]. *)
Fixpoint has_sep (s : string) : bool :=
  match s with
  | EmptyString => false
  | String c s' => bool_decide (c = pathsep) || has_sep s'
  end.

Definition no_sep (s : string) : Prop := has_sep s = false.


(** ** create, reset, current *)

Definition create (name : string) (st : state) : outcome :=
  if decide (name = "base") then
    Exited 1 ["Error: Cannot create an environment named 'base'"] st
  else
    lift (Env.init name st) st (λ env,
    if decide (records st !! Env.name env ≠ None) then
      Exited 1 ["Error: Environment '" +:+ name +:+ "' already exists"] st
    else
      Returned ["Created environment: " +:+ name] (Env.save env st)).

Definition reset (st : state) : outcome :=
  let st := set_current_env "base" st in
  lift (Env.init "base" st) st (λ base_env,
  let base_env := Env.Make (Env.name base_env) [] in
  Returned ["Reset to base environment and cleared all paths"] (Env.save base_env st)).

Definition newline : string := String (ascii_of_nat 10) EmptyString.

Definition current (st : state) : outcome :=
  lift (get_current_env_name st) st (λ current_env,
  after ["Current env: " +:+ current_env]
    (lift (Env.init current_env st) st (λ env,
     Returned
       match Env.env_paths env with
       | [] => []
       | paths =>
           (newline +:+ "Paths in this environment:") :: map (λ p, "  - " +:+ p) paths
       end
       st))).

(** ** deactivate *)

(** [for path in env.env_paths: if path in current_path:
    current_path.remove(path)]. *)
Definition remove_each (current env_paths : list string) : list string :=
  foldl (λ cur path, if decide (path ∈ cur) then Env.remove_first path cur else cur)
        current env_paths.

Definition deactivate (name : string) (st : state) : outcome :=
  lift (Env.init name st) st (λ env,
  Returned [] (set_PATH (join (remove_each (current_path st) (Env.env_paths env))) st)).

(** ** The entry point *)

(** The statements under [if __name__ == "__main__":] that run before
    [app()].  The pointer file is opened outside the [try], and the
    [try] catches [json.JSONDecodeError] only; the name read is not
    used.  A missing pointer file is created holding "base", and a
    missing [base.json] is written. *)
Definition main_block (st : state) : outcome :=
  lift
    match pointer st with
    | Some config_file =>
        txt ← read_text config_file;
        _ ← try_except (json_loads txt) [JSONDecodeError] (Ok "base");
        Ok st
    | None => Ok (set_current_env "base" st)
    end
    st (λ st,
  lift (Env.init "base" st) st (λ base_env,
  Returned []
    (if decide (records st !! Env.name base_env = None) then Env.save base_env st
     else st))).

(** A run of the program: the entry block, then the command that
    [app()] dispatches to. *)
Definition main (command : state → outcome) (st : state) : outcome :=
  and_then (main_block st) command.

(** ** info *)

Section Info.
Variable ENV_BASE_DIR : string.
(** [os.environ] at the two names that [info] looks up. *)
Variable ENV_MANAGER_HOME : option string.
Variable XDG_CONFIG_HOME : option string.
(** [ENV_BASE_DIR.exists()]; the entry block creates the directory. *)
Variable env_dir_exists : bool.



End Info.

(** * Files of any content *)

Module Raw.

(** ** Parsed documents *)

(** What [json.loads] returns: [None], a [bool], a number, a [str], a
    [list] or a [dict].  The members of an object are those of the
    [dict], in its order, their keys distinct. *)
#[local] Unset Elimination Schemes.
Inductive json : Type :=
| JNull
| JBool (b : bool)
| JNumber (literal : string)
| JString (s : string)
| JArray (items : list json)
| JObject (members : list (string * json)).
#[local] Set Elimination Schemes.

(** A file that exists: [open] raises [OSError], or the bytes do not
    decode in the encoding of the run (UTF-8) and reading raises
    [UnicodeDecodeError], or reading yields the text. *)
Inductive file : Type :=
| Unreadable
| Undecodable
| Content (t : text json).

(** [open(f, "r")] followed by reading, and [Path.read_text]. *)
Definition read_text (f : file) : result (text json) :=
  match f with
  | Unreadable => Raise OSError
  | Undecodable => Raise UnicodeDecodeError
  | Content t => Ok t
  end.

(** [with open(f, "r") as h: json.load(h)]. *)
Definition json_load (f : file) : result json :=
  t ← read_text f; json_loads t.

(** The value at [key] among the members of a [dict]. *)
Fixpoint member (key : string) (members : list (string * json)) : option json :=
  match members with
  | [] => None
  | (k, v) :: rest => if decide (k = key) then Some v else member key rest
  end.

(** [config.get(key, dflt)]: of the parsed values only a [dict] has
    the method. *)
Definition get (key : string) (dflt : json) (config : json) : result json :=
  match config with
  | JObject members => Ok (default dflt (member key members))
  | _ => Raise AttributeError
  end.

(** The one-character strings of a string. *)
Fixpoint chars (s : string) : list string :=
  match s with
  | EmptyString => []
  | String c s' => String c EmptyString :: chars s'
  end.

(** [for x in v]: a list yields its items, a string its characters, a
    [dict] its keys; the other values are not iterable. *)
Definition iter (v : json) : result (list json) :=
  match v with
  | JArray items => Ok items
  | JString s => Ok (JString <$> chars s)
  | JObject members => Ok (JString <$> members.*1)
  | JNull | JBool _ | JNumber _ => Raise TypeError
  end.

(** Whether [needle] is a prefix of [s], and whether it occurs in [s]. *)
Fixpoint starts_with (needle s : string) : bool :=
  match needle, s with
  | EmptyString, _ => true
  | String _ _, EmptyString => false
  | String a needle', String b s' => bool_decide (a = b) && starts_with needle' s'
  end.

Fixpoint occurs_in (needle s : string) : bool :=
  starts_with needle s
  || match s with
     | EmptyString => false
     | String _ s' => occurs_in needle s'
     end.

(** Whether a parsed value is the string [x]. *)
Definition is_string (x : string) (v : json) : bool :=
  match v with
  | JString s => bool_decide (s = x)
  | _ => false
  end.

(** [x in v] for a string [x]: a key of a [dict], an item of a [list]
    (a string equals the same string and no value of another type), a
    substring of a string; the other values are not containers. *)
Definition contains (x : string) (v : json) : result bool :=
  match v with
  | JObject members => Ok (if member x members is Some _ then true else false)
  | JArray items => Ok (existsb (is_string x) items)
  | JString s => Ok (occurs_in x s)
  | JNull | JBool _ | JNumber _ => Raise TypeError
  end.

(** [hash(v)] is defined: a [list] and a [dict] are not hashable. *)
Definition hashable (v : json) : bool :=
  match v with
  | JArray _ | JObject _ => false
  | _ => true
  end.

(** The strings of a list whose items are all strings. *)
Fixpoint strings_of (items : list json) : option (list string) :=
  match items with
  | [] => Some []
  | JString s :: rest => cons s <$> strings_of rest
  | _ :: _ => None
  end.

(** ** The state of a run *)

(** As in the first layer: [records] maps a name to the file that it
    denotes, [pointer] is [CONFIG_FILE], [PATH] is
    [os.environ["PATH"]].  Writes succeed. *)
Record state : Type := State {
  records : gmap string file;
  pointer : option file;
  PATH : option string
}.

Definition set_records (r : gmap string file) (st : state) : state :=
  State r (pointer st) (PATH st).
Definition set_pointer (p : option file) (st : state) : state :=
  State (records st) p (PATH st).
Definition set_PATH (v : string) (st : state) : state :=
  State (records st) (pointer st) (Some v).

(** [os.environ.get("PATH", "").split(os.pathsep)]. *)
Definition current_path (st : state) : list string :=
  split (default EmptyString (PATH st)).

Inductive outcome : Type :=
| Returned (out : list string) (st : state)
| Exited (code : Z) (out : list string) (st : state)
| Uncaught (e : exn) (out : list string) (st : state).

Definition lift {A : Type} (m : result A) (st : state) (k : A → outcome) : outcome :=
  match m with
  | Ok a => k a
  | Raise e => Uncaught e [] st
  end.

(** ** class Env *)

Module Env.

(** [env_paths] is whatever the field [paths] of the record held. *)
Record t : Type := Make {
  name : string;
  env_paths : json
}.

Definition load (self : t) (st : state) : result t :=
  match records st !! name self with
  | Some env_file =>
      try_except
        (config ← json_load env_file;
         paths ← get "paths" (JArray []) config;
         Ok (Make (name self) paths))
        [JSONDecodeError; OSError]
        (Ok (Make (name self) (JArray [])))
  | None => Ok self
  end.

Definition init (n : string) (st : state) : result t :=
  load (Make n (JArray [])) st.

(** [save]: [json.dump] of [{"name": ..., "paths": ...}]; [env_paths]
    came out of [json.load] or was built from strings, so it can be
    written, and reads back as it is. *)
Definition save (self : t) (st : state) : state :=
  set_records
    (<[name self := Content (Json (JObject [("name", JString (name self));
                                            ("paths", env_paths self)]))]>
       (records st))
    st.

(** [list.remove(x)] for a string [x]: drops the first item that is
    [x]. *)
Fixpoint remove_first (x : string) (items : list json) : list json :=
  match items with
  | [] => []
  | v :: rest => if is_string x v then rest else v :: remove_first x rest
  end.

Section Resolve.
Variable resolve : string → string.

(** Of the parsed values only a [list] has [append] and [remove]. *)
Definition add_path (self : t) (path : string) (st : state)
    : result (bool * t * state) :=
  let abs_path := resolve path in
  present ← contains abs_path (env_paths self);
  if present : bool then Ok (false, self, st)
  else
    match env_paths self with
    | JArray items =>
        let self' := Make (name self) (JArray (items ++ [JString abs_path])) in
        Ok (true, self', save self' st)
    | _ => Raise AttributeError
    end.

Definition remove_path (self : t) (path : string) (st : state)
    : result (bool * t * state) :=
  let abs_path := resolve path in
  present ← contains abs_path (env_paths self);
  if present : bool then
    match env_paths self with
    | JArray items =>
        let self' := Make (name self) (JArray (remove_first abs_path items)) in
        Ok (true, self', save self' st)
    | _ => Raise AttributeError
    end
  else Ok (false, self, st).
End Resolve.

End Env.

(** ** The pointer to the active environment *)

(** The value read is whatever document the pointer file holds. *)
Definition get_current_env_name (st : state) : result json :=
  match pointer st with
  | Some config_file =>
      try_except (json_load config_file) [JSONDecodeError; OSError] (Ok (JString "base"))
  | None => Ok (JString "base")
  end.

Definition set_current_env (n : string) (st : state) : state :=
  set_pointer (Some (Content (Json (JString n)))) st.

(** ** activate without [--export-shell] *)

(** [all_envwrap_paths.update(paths)] on the items that iterating
    [paths] yields: an item that is not hashable raises [TypeError].
    Only the strings are kept here; the set is used for nothing but
    membership tests of strings, and a string equals no other value. *)
Fixpoint update (acc : gset string) (items : list json) : result (gset string) :=
  match items with
  | [] => Ok acc
  | JString p :: rest => update (acc ∪ {[p]}) rest
  | v :: rest => if hashable v then update acc rest else Raise TypeError
  end.

(** The loop over [ENV_BASE_DIR.glob("*.json")]. *)
Fixpoint collect_paths (files : list (string * file)) (acc : gset string)
    : result (gset string) :=
  match files with
  | [] => Ok acc
  | (_, env_file) :: rest =>
      acc' ← try_except
               (config ← json_load env_file;
                paths ← get "paths" (JArray []) config;
                items ← iter paths;
                update acc items)
               [JSONDecodeError; OSError]
               (Ok acc);
      collect_paths rest acc'
  end.

Definition all_envwrap_paths (st : state) : result (gset string) :=
  collect_paths (glob_json (records st)) ∅.

Definition activate_report (name : string) (env_paths : list string) : list string :=
  ("Activated environment: " +:+ name)
  :: match env_paths with
     | [] => []
     | paths => "Added paths to PATH:" :: map (λ p, "  - " +:+ p) paths
     end.

(** [activate(name)] as the command line calls it without
    [--export-shell]: [export_shell] is [None].  In the loop
    [for path in env.env_paths] an item that is not a string equals no
    string, so the first such item is not in [cleaned_path] and is
    inserted, and [os.pathsep.join] then raises [TypeError]; when
    every item is a string the loop is [insert_front]. *)
Definition activate (name : string) (st : state) : outcome :=
  if decide (name ≠ "base" ∧ records st !! name = None) then
    Exited 1 ["Error: Environment '" +:+ name +:+ "' does not exist"] st
  else
    lift (all_envwrap_paths st) st (λ U,
    let st := set_current_env name st in
    lift (Env.init name st) st (λ env,
    let cleaned_path := filter (λ p, p ∉ U) (current_path st) in
    lift (iter (Env.env_paths env)) st (λ items,
    match strings_of items with
    | Some env_paths =>
        Returned (activate_report name env_paths)
          (set_PATH (join (insert_front cleaned_path env_paths)) st)
    | None => Uncaught TypeError [] st
    end))).

(** The list [cleaned_path] that [activate name] joins into [PATH],
    when the activation gets that far. *)
Definition activate_path_list (name : string) (st : state) : option (list string) :=
  match all_envwrap_paths st, Env.init name (set_current_env name st) with
  | Ok U, Ok env =>
      match iter (Env.env_paths env) with
      | Ok items =>
          insert_front (filter (λ p, p ∉ U) (current_path st)) <$> strings_of items
      | Raise _ => None
      end
  | _, _ => None
  end.

(** ** clone *)

Definition clone (source target : string) (st : state) : outcome :=
  if decide (target = "base") then
    Exited 1 ["Error: Cannot clone to base environment"] st
  else
    lift (Env.init source st) st (λ source_env,
    lift (Env.init target st) st (λ target_env,
    if decide (records st !! source = None) then
      Exited 1 ["Error: Environment '" +:+ source +:+ "' does not exist"] st
    else
      let target_env := Env.Make (Env.name target_env) (Env.env_paths source_env) in
      Returned ["Cloned environment: " +:+ source +:+ " to " +:+ target]
               (Env.save target_env st))).

(** [env_file.unlink()]. *)
Definition unlink (name : string) (st : state) : state :=
  set_records (base.delete name (records st)) st.

(** ** list *)

Section Listing.
Variable ENV_BASE_DIR : string.
(** [a == b] for two parsed values that are not both strings, and
    [str(v)] for a parsed value that is not a string. *)
Variable py_eq : json → json → bool.
Variable py_str : json → string.

(** [a == b]: a string equals the same string and no value of another
    type. *)
Definition eqb (a b : json) : bool :=
  match a, b with
  | JString x, JString y => bool_decide (x = y)
  | JString _, _ | _, JString _ => false
  | _, _ => py_eq a b
  end.

(** [f"{v}"]. *)
Definition format (v : json) : string :=
  match v with
  | JString s => s
  | _ => py_str v
  end.

(** [v[key]] with a string as [key]. *)
Definition item (key : string) (v : json) : result json :=
  match v with
  | JObject members =>
      match member key members with
      | Some x => Ok x
      | None => Raise KeyError
      end
  | _ => Raise TypeError
  end.

(** The body of the loop for the file [<n>.json], other than
    [base.json]: the line it prints, or the exception it lets
    through. *)
Definition list_entry (current_env : json) (n : string) (env_file : file)
    : result string :=
  match read_text env_file with
  | Raise OSError => Ok (invalid_line ENV_BASE_DIR n)
  | Raise e => Raise e
  | Ok txt =>
      if is_blank txt then Ok (invalid_line ENV_BASE_DIR n)
      else
        match json_loads txt with
        | Raise JSONDecodeError => Ok (invalid_line ENV_BASE_DIR n)
        | Raise e => Raise e
        | Ok env_config =>
            present ← contains "name" env_config;
            if negb present then Ok (invalid_line ENV_BASE_DIR n)
            else
              v ← item "name" env_config;
              Ok (if eqb v current_env then "+ " +:+ format v +:+ " (active)"
                  else "+ " +:+ format v)
        end
  end.

(** The loop over [env_dir.glob("*.json")]: the lines printed, and
    the exception that stopped the loop, if any. *)
Fixpoint list_loop (current_env : json) (files : list (string * file))
    : list string * option exn :=
  match files with
  | [] => ([], None)
  | (n, env_file) :: rest =>
      if decide (n = "base") then list_loop current_env rest
      else
        match list_entry current_env n env_file with
        | Ok line =>
            let '(lines, stop) := list_loop current_env rest in
            (line :: lines, stop)
        | Raise e => ([], Some e)
        end
  end.

(** The command [list] without [--names-only]. *)
Definition list_command (st : state) : outcome :=
  lift (get_current_env_name st) st (λ current_env,
  let base_line :=
    if eqb current_env (JString "base") then "+ base (active)" else "+ base" in
  match list_loop current_env (glob_json (records st)) with
  | (lines, None) => Returned (base_line :: lines) st
  | (lines, Some e) => Uncaught e (base_line :: lines) st
  end).
End Listing.

(** ** Notions used to state the properties *)

(** The record that [save] writes. *)
Definition record_of (n : string) (paths : list string) : file :=
  Content (Json (JObject [("name", JString n); ("paths", JArray (JString <$> paths))])).

(** The paths that a document of the expected shape declares: the
    document is an object, and its field [paths], when present, is an
    array of strings. *)
Definition shaped (d : json) : option (list string) :=
  match d with
  | JObject members =>
      match member "paths" members with
      | None => Some []
      | Some (JArray items) => strings_of items
      | Some _ => None
      end
  | _ => None
  end.

(** The paths that the readers obtain from a record file that they
    can process: none from a file that cannot be opened, is blank or is
    not JSON, which they skip, and the declared ones from a document of
    the expected shape.  No answer for the other files. *)
Definition readable_paths (f : file) : option (list string) :=
  match f with
  | Unreadable => Some []
  | Undecodable => None
  | Content Blank | Content Garbage => Some []
  | Content (Json d) => shaped d
  end.

(** A record file that the listing does not expect: its bytes do not
    decode, or it holds a document in which the field [name] cannot be
    looked up although the test for it does not fail: [null], a
    boolean, a number, an array with the item "name", a string in
    which "name" occurs. *)
Definition unexpected (f : file) : Prop :=
  f = Undecodable ∨
  ∃ d, f = Content (Json d) ∧
       (d = JNull ∨ (∃ b, d = JBool b) ∨ (∃ x, d = JNumber x) ∨
        (∃ items, d = JArray items ∧ JString "name" ∈ items) ∨
        (∃ s, d = JString s ∧ occurs_in "name" s = true)).

(** Every record file that [glob("*.json")] visits can be processed. *)
Definition regular (st : state) : Prop :=
  Forall (λ nf, is_Some (readable_paths nf.2)) (glob_json (records st)).

Definition stored_paths (st : state) (name : string) : list string :=
  from_option (λ f, default [] (readable_paths f)) [] (records st !! name).

(** The union of the paths of the record files that [glob("*.json")]
    visits. *)
Definition glob_path_set (st : state) : gset string :=
  ⋃ ((λ nf, list_to_set (default [] (readable_paths nf.2))) <$> glob_json (records st)).

(** [name] is "base" or has a record file. *)
Definition env_exists (st : state) (name : string) : Prop :=
  name = "base" ∨ is_Some (records st !! name).

(** The list that the specification describes for an activation: the
    ambient entries outside [U], preceded by the target's paths in
    their stored order, each taken at its first occurrence. *)
Definition stored_order_path_list (U : gset string) (env_paths current : list string)
    : list string :=
  reverse (remove_dups (reverse env_paths)) ++ filter (λ p, p ∉ U) current.

(** C1 as a property of one target and one state: the activation
    joins into [PATH] the list that the specification describes. *)
Definition activation_in_stored_order (name : string) (st : state) : Prop :=
  activate_path_list name st
  = Some (stored_order_path_list (glob_path_set st) (stored_paths st name)
            (current_path st)).

(** C2 as a property of two environments and one state: activating
    [E1] and then [E2] returns both times, and afterwards no entry of
    [PATH] is a stored path of [E1]. *)
Definition no_leak (E1 E2 : string) (st : state) : Prop :=
  ∃ out1 st1 out2 st2,
    activate E1 st = Returned out1 st1 ∧
    activate E2 st1 = Returned out2 st2 ∧
    ∀ p, p ∈ stored_paths st E1 → p ∉ current_path st2.

(** C4 as a property of one environment and one state: activating
    [name] twice in a row returns both times and leaves in [PATH] after
    the second activation what the first had left. *)
Definition activation_idempotent (name : string) (st : state) : Prop :=
  ∃ out1 st1 out2 st2,
    activate name st = Returned out1 st1 ∧
    activate name st1 = Returned out2 st2 ∧
    PATH st2 = PATH st1.

(** A later change of an environment through its object: a call of
    [add_path] or of [remove_path], an assignment to [env_paths]
    followed by [save] (as [reset] and [clone] do), and the removal of
    the record file (as [delete] does).  A call that raises has
    written nothing. *)
Inductive mutation : Type :=
| AddPath (path : string)
| RemovePath (path : string)
| SetPaths (paths : json)
| Unlink.

Definition mutate (resolve : string → string) (m : mutation)
    (envst : Env.t * state) : Env.t * state :=
  match m with
  | AddPath path =>
      match Env.add_path resolve envst.1 path envst.2 with
      | Ok (_, env, st) => (env, st)
      | Raise _ => envst
      end
  | RemovePath path =>
      match Env.remove_path resolve envst.1 path envst.2 with
      | Ok (_, env, st) => (env, st)
      | Raise _ => envst
      end
  | SetPaths paths =>
      let env := Env.Make (Env.name envst.1) paths in (env, Env.save env envst.2)
  | Unlink => (envst.1, unlink (Env.name envst.1) envst.2)
  end.

(** The state after the mutations [ms], in order, of the environment
    [name] loaded from [st]. *)
Definition mutate_env (resolve : string → string) (name : string)
    (ms : list mutation) (st : state) : state :=
  match Env.init name st with
  | Ok env => (foldl (λ envst m, mutate resolve m envst) (env, st) ms).2
  | Raise _ => st
  end.

(** C9 as a property of one call: the clone returns, the target then
    stores the paths that the source had, and no later mutation of the
    source changes what the target stores. *)
Definition clone_is_independent (resolve : string → string)
    (source target : string) (st : state) : Prop :=
  ∃ out st1,
    clone source target st = Returned out st1 ∧
    records st1 !! target = Some (record_of target (stored_paths st source)) ∧
    ∀ ms, records (mutate_env resolve source ms st1) !! target
          = Some (record_of target (stored_paths st source)).

(** ** Sample states *)

Definition st_two : state :=
  State (<["t" := record_of "t" ["/a"; "/b"]]> ∅) None (Some "/usr/bin").

(** Beside the record of "t", a file named [copy.json] whose bytes do
    not decode. *)
Definition st_copy_undecodable : state :=
  State (<["t" := record_of "t" ["/a"; "/b"]]> (<["copy" := Undecodable]> ∅))
        None (Some "/usr/bin").

Definition st_repeated : state :=
  State (<["t" := record_of "t" ["/a"; "/b"; "/a"]]> ∅) None (Some "/usr/bin").

Definition st_dev_ci : state :=
  State (<["dev" := record_of "dev" ["/opt/dev/bin"]]>
           (<["ci" := record_of "ci" ["/opt/ci/bin"]]> ∅))
        None (Some "/usr/bin:/opt/ci/bin").

Definition st_colon : state :=
  State (<["e" := record_of "e" ["/x/a:b"]]> ∅) None (Some "/usr/bin").

(** A record below the registry directory, as [create sub/x] and
    [addpath] leave it. *)
Definition st_sub : state :=
  State (<["sub/x" := record_of "sub/x" ["/p"]]> ∅) None (Some "/usr/bin:/p").

Definition st_sub_other : state :=
  State (<["sub/x" := record_of "sub/x" ["/p"]]>
           (<["o" := record_of "o" ["/q"]]> ∅))
        None (Some "/usr/bin").

Definition st_sub_shared : state :=
  State (<["sub/x" := record_of "sub/x" ["/q"; "/p"]]>
           (<["o" := record_of "o" ["/q"]]> ∅))
        None (Some "/z").

(** The second environment stores a path that holds the separator. *)
Definition st_joined : state :=
  State (<["e1" := record_of "e1" ["/a"]]>
           (<["e2" := record_of "e2" ["/a:/b"]]> ∅))
        None (Some "/usr/bin").

(** The first environment stores the empty string. *)
Definition st_empty_path : state :=
  State (<["e1" := record_of "e1" [""]]>
           (<["e2" := record_of "e2" []]> ∅))
        None (Some "").

(** Beside the record of "t", a file whose bytes do not decode and a
    file that holds the document [null]. *)
Definition st_undecodable : state :=
  State (<["t" := record_of "t" ["/a"]]>
           (<["u" := record_of "u" ["/b"]]> (<["bad" := Undecodable]> ∅)))
        None (Some "/usr/bin").

Definition st_null : state :=
  State (<["dev" := record_of "dev" ["/opt/dev/bin"]]>
           (<["odd" := Content (Json JNull)]> ∅))
        None (Some "/usr/bin").

End Raw.

(** ** The first layer inside the second *)

(** The document that [json.dump] writes for a record of the first
    layer, and the files and states of the first layer as files and
    states of the second. *)
Definition raw_of_config (cfg : config) : Raw.json :=
  Raw.JObject
    (match cfg_name cfg with
     | Some n => [("name", Raw.JString n)]
     | None => []
     end
     ++ match cfg_paths cfg with
        | Some paths => [("paths", Raw.JArray (Raw.JString <$> paths))]
        | None => []
        end).

Definition raw_of_file {A : Type} (inj : A → Raw.json) (f : file A) : Raw.file :=
  match f with
  | Unreadable => Raw.Unreadable
  | Content Blank => Raw.Content Blank
  | Content Garbage => Raw.Content Garbage
  | Content (Json doc) => Raw.Content (Json (inj doc))
  end.

Definition raw_of_state (st : state) : Raw.state :=
  Raw.State (raw_of_file raw_of_config <$> records st)
            (raw_of_file Raw.JString <$> pointer st)
            (PATH st).

Definition raw_of_outcome (o : outcome) : Raw.outcome :=
  match o with
  | Returned out st => Raw.Returned out (raw_of_state st)
  | Exited code out st => Raw.Exited code out (raw_of_state st)
  | Uncaught e out st => Raw.Uncaught e out (raw_of_state st)
  end.

(** ** Further notions used to state the properties *)

(** How many times [p] occurs in [l]. *)
Definition occurrences (p : string) (l : list string) : nat :=
  length (filter (λ x, x = p) l).

(** The value of the path variable, empty when it is not set. *)
Definition path_value (st : state) : string := default EmptyString (PATH st).

Definition st_fresh : state := State ∅ None None ∅.

Definition st_repeated : state :=
  State (<["t" := record_of "t" ["/a"; "/b"; "/a"]]> ∅) None
        (Some "/a:/usr/bin:/a") ∅.

Definition st_base_paths : state :=
  State (<["base" := record_of "base" ["/b"]]> ∅)
        (Some (Content (Json "base"))) (Some "/b:/usr/bin") ∅.

(** * Properties *)

Example split_example : split "/a:/b::c" = ["/a"; "/b"; ""; "c"].
Proof. reflexivity. Qed.

Example join_example : join ["/a"; "/b"; ""; "c"] = "/a:/b::c".
Proof. reflexivity. Qed.

(** ** Reads of text files *)

Lemma json_load_cases {A : Type} (f : file A) :
  json_load f = match f with
                | Unreadable => Raise OSError
                | Content (Json doc) => Ok doc
                | Content _ => Raise JSONDecodeError
                end.
Proof. by destruct f as [|[| |doc]]. Qed.

Lemma Env_init_total (name : string) (st : state) :
  Env.init name st = Ok (Env.Make name (stored_paths st name)).
Proof.
  unfold Env.init, Env.load, stored_paths; simpl.
  destruct (records st !! name) as [f|]; [|done].
  rewrite json_load_cases.
  by destruct f as [|[| |cfg]].
Qed.

Lemma get_current_env_name_total (st : state) :
  ∃ n, get_current_env_name st = Ok n.
Proof.
  unfold get_current_env_name.
  destruct (pointer st) as [f|]; [|by eexists].
  rewrite json_load_cases.
  destruct f as [|[| |n]]; by eexists.
Qed.

(** ** The scan of the registry *)

Lemma elem_of_glob_json {A : Type} (recs : gmap string A) (n : string) (f : A) :
  (n, f) ∈ glob_json recs ↔ plain n ∧ recs !! n = Some f.
Proof.
  unfold glob_json. rewrite list_elem_of_filter. simpl.
  by rewrite elem_of_map_to_list.
Qed.

Lemma collect_paths_union (files : list (string * file config)) (acc : gset string) :
  collect_paths files acc
  = Ok (acc ∪ ⋃ ((λ nf, list_to_set (readable_paths nf.2)) <$> files)).
Proof.
  revert acc; induction files as [|[n f] files IH]; intros acc; simpl.
  - by rewrite (right_id_L ∅ (∪)).
  - rewrite json_load_cases.
    destruct f as [|[| |cfg]]; simpl; rewrite IH; f_equal.
    all: by rewrite ?(left_id_L ∅ (∪)), ?(assoc_L (∪)).
Qed.

Lemma all_envwrap_paths_total (st : state) :
  all_envwrap_paths st = Ok (glob_path_set st).
Proof.
  unfold all_envwrap_paths, glob_path_set.
  rewrite collect_paths_union. by rewrite (left_id_L ∅ (∪)).
Qed.

Lemma elem_of_union_path_set (st : state) (p : string) :
  p ∈ union_path_set st ↔
  ∃ n f, records st !! n = Some f ∧ p ∈ readable_paths f.
Proof.
  unfold union_path_set. rewrite elem_of_union_list. split.
  - intros (X & HX & Hp).
    apply list_elem_of_fmap in HX as ([n f] & -> & Hnf).
    apply elem_of_map_to_list in Hnf.
    exists n, f. split; [done|]. by apply elem_of_list_to_set in Hp.
  - intros (n & f & Hnf & Hp).
    exists (list_to_set (readable_paths f)). split.
    + apply list_elem_of_fmap. exists (n, f). split; [done|].
      by apply elem_of_map_to_list.
    + by apply elem_of_list_to_set.
Qed.

Lemma elem_of_glob_path_set (st : state) (p : string) :
  p ∈ glob_path_set st ↔
  ∃ n f, plain n ∧ records st !! n = Some f ∧ p ∈ readable_paths f.
Proof.
  unfold glob_path_set. rewrite elem_of_union_list. split.
  - intros (X & HX & Hp).
    apply list_elem_of_fmap in HX as ([n f] & -> & Hnf).
    apply elem_of_glob_json in Hnf as [Hplain Hnf].
    exists n, f. split; [done|]. split; [done|].
    by apply elem_of_list_to_set in Hp.
  - intros (n & f & Hplain & Hnf & Hp).
    exists (list_to_set (readable_paths f)). split.
    + apply list_elem_of_fmap. exists (n, f). split; [done|].
      by apply elem_of_glob_json.
    + by apply elem_of_list_to_set.
Qed.

(** The scan builds a part of the union over all the records. *)
Lemma glob_path_set_subseteq (st : state) (p : string) :
  p ∈ glob_path_set st → p ∈ union_path_set st.
Proof.
  intros (n & f & _ & Hf & Hp)%elem_of_glob_path_set.
  apply elem_of_union_path_set. eauto.
Qed.

(** The paths of a record of the registry directory itself are in the
    set that the scan builds. *)
Lemma stored_paths_in_glob (st : state) (name p : string) :
  plain name → p ∈ stored_paths st name → p ∈ glob_path_set st.
Proof.
  unfold stored_paths. intros Hplain Hp.
  destruct (records st !! name) as [f|] eqn:Hf; simpl in Hp.
  - apply elem_of_glob_path_set. eauto.
  - by apply elem_of_nil in Hp.
Qed.

(** ** Inserting at the front *)

Lemma insert_front_snoc (cleaned env_paths : list string) (p : string) :
  insert_front cleaned (env_paths ++ [p])
  = let done := insert_front cleaned env_paths in
    if decide (p ∉ done) then p :: done else done.
Proof. unfold insert_front. by rewrite foldl_app. Qed.

Lemma insert_front_fresh (cleaned env_paths : list string) :
  (∀ p, p ∈ env_paths → p ∉ cleaned) →
  insert_front cleaned env_paths = remove_dups (reverse env_paths) ++ cleaned.
Proof.
  induction env_paths as [|p env_paths IH] using rev_ind; intros Hfresh.
  - done.
  - rewrite insert_front_snoc, reverse_snoc. simpl.
    rewrite IH by (intros q Hq; apply Hfresh, elem_of_app; by left).
    assert (p ∉ cleaned) as Hp
      by (apply Hfresh, elem_of_app; right; apply list_elem_of_singleton; done).
    destruct (decide_rel elem_of p (reverse env_paths)) as [Hin|Hin];
      case_decide as Hd; try done.
    + exfalso. apply Hd. apply elem_of_app. left. by apply elem_of_remove_dups.
    + apply elem_of_app in Hd as [H|H]; [|done].
      by apply (proj1 (elem_of_remove_dups _ _)) in H.
Qed.

(** The loop adds entries and drops none: the list it leaves holds
    the entries it started from and the paths it was given. *)
Lemma elem_of_insert_front (cleaned env_paths : list string) (p : string) :
  p ∈ insert_front cleaned env_paths ↔ p ∈ env_paths ∨ p ∈ cleaned.
Proof.
  induction env_paths as [|q env_paths IH] using rev_ind.
  - simpl. split; [by right|]. intros [H|H]; [by apply elem_of_nil in H|done].
  - rewrite insert_front_snoc. cbv zeta.
    rewrite elem_of_app, list_elem_of_singleton.
    case_decide as Hd.
    + rewrite elem_of_cons, IH. tauto.
    + rewrite IH. split; [tauto|].
      intros [[H| ->]|H]; [by left| |by right].
      by apply IH.
Qed.

(** ** Activation in the process *)

Lemma new_path_list_glob (st : state) (name : string) (current : list string) :
  plain name →
  new_path_list (glob_path_set st) (stored_paths st name) current
  = remove_dups (reverse (stored_paths st name))
    ++ filter (λ p, p ∉ glob_path_set st) current.
Proof.
  intros Hplain. unfold new_path_list. apply insert_front_fresh.
  intros p Hp [Hout _]%list_elem_of_filter.
  by apply Hout, (stored_paths_in_glob st name).
Qed.

Lemma activate_in_process (st : state) (name : string) :
  env_exists st name →
  activate name ExportNone st
  = Returned
      (activate_report (Env.Make name (stored_paths st name)))
      (set_PATH
         (join (new_path_list (glob_path_set st) (stored_paths st name) (current_path st)))
         (set_current_env name st)).
Proof.
  intros Hex. unfold activate.
  case_decide as Hno.
  { destruct Hno as [Hne Hnone], Hex as [->|[f Hf]]; congruence. }
  rewrite all_envwrap_paths_total; simpl.
  by rewrite Env_init_total.
Qed.

Lemma activate_path_list_total (st : state) (name : string) :
  activate_path_list name st
  = Some (new_path_list (glob_path_set st) (stored_paths st name) (current_path st)).
Proof.
  unfold activate_path_list.
  by rewrite all_envwrap_paths_total, Env_init_total.
Qed.

(** ** The existence check of activation *)

(** C6: for a target other than "base" without a record file,
    activation exits with code 1 after its error message and leaves
    the state (records, pointer, [PATH] and exported scripts) as it
    was, whatever the export argument; and activating "base" never
    ends with that exit, whether "base" has a record file or not. *)
Theorem activation_existence_check (st : state) (export_shell : export_arg) :
  (∀ name, name ≠ "base" → records st !! name = None →
     activate name export_shell st
     = Exited 1 ["Error: Environment '" +:+ name +:+ "' does not exist"] st) ∧
  (∀ code out st', activate "base" export_shell st ≠ Exited code out st').
Proof.
  split.
  - intros name Hne Hnone. unfold activate.
    case_decide as Hno; [done|]. by destruct Hno.
  - intros code out st'. unfold activate.
    case_decide as Hno; [by destruct Hno|].
    destruct (all_envwrap_paths st) as [U|e]; simpl; [|done].
    destruct (Env.init "base" (set_current_env "base" st)) as [env|e]; simpl; [|done].
    by destruct export_shell; simpl; [|case_bool_decide|].
Qed.

Lemma activation_existence_check_witness :
  activate "ghost" ExportNone st_two
  = Exited 1 ["Error: Environment 'ghost' does not exist"] st_two.
Proof.
  destruct (activation_existence_check st_two ExportNone) as [Hmiss _].
  apply (Hmiss "ghost"); [discriminate | by vm_compute].
Defined.

(** ** Deletion *)

Lemma activate_plain_call_raises (st : state) (name : string) :
  env_exists st name →
  activate name ExportOptionInfo st = Uncaught TypeError [] (set_current_env name st).
Proof.
  intros Hex. unfold activate.
  case_decide as Hno.
  { destruct Hno as [Hne Hnone], Hex as [->|[f Hf]]; congruence. }
  rewrite all_envwrap_paths_total; simpl.
  by rewrite Env_init_total.
Qed.

(** Deleting an environment that is not the active one removes its
    record and touches nothing else. *)
Lemma delete_inactive (st : state) (name current : string) :
  name ≠ "base" → is_Some (records st !! name) →
  get_current_env_name st = Ok current → current ≠ name →
  delete name st = Returned ["Deleted environment: " +:+ name] (unlink name st).
Proof.
  intros Hne [f Hf] Hcur Hother. unfold delete.
  rewrite decide_False by done.
  rewrite decide_False by congruence.
  rewrite Hcur; simpl. by rewrite decide_False by done.
Qed.

(** C3 on the code: [delete("base")] exits with code 1 and the state
    untouched; deleting the active environment, other than "base",
    writes "base" to the pointer and then ends in a [TypeError] raised
    inside [activate], called with its default [export_shell], so
    [unlink] is never reached and the record file is still there. *)
Theorem delete_active_env_raises (st : state) (name : string) :
  delete "base" st = Exited 1 ["Error: Cannot delete the base environment"] st ∧
  (name ≠ "base" → is_Some (records st !! name) →
   get_current_env_name st = Ok name →
   delete name st
   = Uncaught TypeError
       ["Switching to base environment before deleting '" +:+ name +:+ "'"]
       (set_current_env "base" st) ∧
   get_current_env_name (set_current_env "base" st) = Ok "base" ∧
   records (set_current_env "base" st) !! name = records st !! name).
Proof.
  split; [done|].
  intros Hne [f Hf] Hcur. split; [|done].
  unfold delete.
  rewrite decide_False by done.
  rewrite decide_False by congruence.
  rewrite Hcur; simpl. rewrite decide_True by done.
  rewrite activate_plain_call_raises by (by left).
  done.
Qed.

Lemma delete_active_env_raises_witness :
  delete "t" st_active_t
  = Uncaught TypeError ["Switching to base environment before deleting 't'"]
      (set_current_env "base" st_active_t) ∧
  records (set_current_env "base" st_active_t) !! "t"
  = Some (record_of "t" ["/a"; "/b"]).
Proof.
  destruct (delete_active_env_raises st_active_t "t") as [_ Hdel].
  destruct Hdel as (Hraise & _ & Hrec);
    [discriminate | by eexists | reflexivity |].
  split; [exact Hraise|]. rewrite Hrec. by vm_compute.
Defined.

(** ** Adding a path *)

Lemma save_lookup (self : Env.t) (st : state) :
  records (Env.save self st) !! Env.name self
  = Some (record_of (Env.name self) (Env.env_paths self)).
Proof. unfold Env.save; simpl. by rewrite lookup_insert_eq. Qed.

Lemma save_lookup_ne (self : Env.t) (st : state) (other : string) :
  Env.name self ≠ other →
  records (Env.save self st) !! other = records st !! other.
Proof. intros Hne. unfold Env.save; simpl. by rewrite lookup_insert_ne. Qed.

Section AddPath.
Variable resolve : string → string.

(** C5: [add_path] resolves its argument; when the resolved path is
    in the list it returns false and changes neither the object nor
    the state; otherwise it appends the resolved path, writes the
    record and returns true.  A second call with an argument that
    resolves to the same path finds it in the list: it returns false
    and changes nothing, so the two calls append at most one entry,
    and exactly one when the path was not there before. *)
Theorem add_path_once (self : Env.t) (path : string) (st : state) :
  let abs_path := resolve path in
  let appended := Env.Make (Env.name self) (Env.env_paths self ++ [abs_path]) in
  (abs_path ∈ Env.env_paths self →
     Env.add_path resolve self path st = (false, self, st)) ∧
  (abs_path ∉ Env.env_paths self →
     Env.add_path resolve self path st = (true, appended, Env.save appended st) ∧
     stored_paths (Env.save appended st) (Env.name self)
     = Env.env_paths self ++ [abs_path]) ∧
  (∀ path' added self1 st1,
     resolve path' = abs_path →
     Env.add_path resolve self path st = (added, self1, st1) →
     Env.add_path resolve self1 path' st1 = (false, self1, st1)).
Proof.
  intros abs_path appended. split; [|split].
  - intros Hin. unfold Env.add_path. by rewrite decide_False by (by intros Hn).
  - intros Hout. unfold Env.add_path. rewrite decide_True by done.
    split; [done|]. unfold stored_paths.
    change (Env.name self) with (Env.name appended).
    by rewrite (save_lookup appended st).
  - intros path' added self1 st1 Hsame Hfirst.
    unfold Env.add_path in *. rewrite Hsame. fold abs_path in Hfirst |- *.
    case_decide as Hd.
    + injection Hfirst as <- <- <-; simpl.
      rewrite decide_False; [done|].
      intros Hn. apply Hn, elem_of_app. right. by apply list_elem_of_singleton.
    + injection Hfirst as <- <- <-.
      by rewrite decide_False by (by intros Hn).
Qed.
End AddPath.

Lemma add_path_once_witness :
  Env.add_path id (Env.Make "t" ["/a"; "/b"]) "/a" st_two
  = (false, Env.Make "t" ["/a"; "/b"], st_two) ∧
  Env.add_path id (Env.Make "t" ["/a"; "/b"]) "/c" st_two
  = (true, Env.Make "t" ["/a"; "/b"; "/c"],
     Env.save (Env.Make "t" ["/a"; "/b"; "/c"]) st_two).
Proof.
  split.
  - destruct (add_path_once id (Env.Make "t" ["/a"; "/b"]) "/a" st_two)
      as (Hpresent & _ & _).
    apply Hpresent. simpl. apply elem_of_cons. by left.
  - destruct (add_path_once id (Env.Make "t" ["/a"; "/b"]) "/c" st_two)
      as (_ & Habsent & _).
    apply Habsent. apply (bool_decide_unpack _). by vm_compute.
Defined.

(** ** The command addpath *)

Section AddPathCommand.
Variable resolve : string → string.
Variable path_exists : string → bool.

(** C10: for a path that does not exist, [addpath] prints its error,
    exits with code 1 and leaves the whole state (records, pointer
    and [PATH]) as it was; [Env.add_path] itself accepts the same
    path, and the list holds its resolved form afterwards. *)
Theorem addpath_missing_path (path : string) (st : state) :
  path_exists path = false →
  addpath resolve path_exists path st
  = Exited 1 ["Error: Path '" +:+ path +:+ "' does not exist"] st ∧
  ∀ env, ∃ added env' st',
    Env.add_path resolve env path st = (added, env', st') ∧
    resolve path ∈ Env.env_paths env'.
Proof.
  intros Hmissing. split.
  - unfold addpath. by rewrite Hmissing.
  - intros env. unfold Env.add_path. case_decide as Hd.
    + eexists _, _, _. split; [done|]. simpl.
      apply elem_of_app. right. by apply list_elem_of_singleton.
    + eexists _, _, _. split; [done|]. exact Hd.
Qed.
End AddPathCommand.

Lemma addpath_missing_path_witness :
  addpath id (λ _, false) "/nowhere" st_two
  = Exited 1 ["Error: Path '/nowhere' does not exist"] st_two.
Proof.
  apply (addpath_missing_path id (λ _, false) "/nowhere" st_two).
  reflexivity.
Defined.

(** ** Cloning *)

Lemma clone_returns (source target : string) (st : state) :
  target ≠ "base" → is_Some (records st !! source) →
  clone source target st
  = Returned ["Cloned environment: " +:+ source +:+ " to " +:+ target]
      (Env.save (Env.Make target (stored_paths st source)) st).
Proof.
  intros Hne [f Hf]. unfold clone.
  rewrite decide_False by done.
  rewrite !Env_init_total; simpl.
  by rewrite decide_False by congruence.
Qed.

(** ** Splitting and joining the path variable *)

Lemma split_nonempty (s : string) : split s ≠ [].
Proof.
  destruct s as [|c s]; simpl; [done|].
  case_decide; [done|]. by destruct (split s).
Qed.

Lemma split_no_sep (s : string) : Forall no_sep (split s).
Proof.
  induction s as [|c s IH]; simpl.
  - by constructor.
  - case_decide as Hc.
    + by constructor.
    + destruct (split s) as [|w ws].
      * constructor; [|done].
        unfold no_sep; simpl. by rewrite bool_decide_eq_false_2.
      * inversion_clear IH as [|? ? Hw Hws].
        constructor; [|done].
        unfold no_sep in *; simpl. by rewrite bool_decide_eq_false_2.
Qed.

Lemma split_single (w : string) : no_sep w → split w = [w].
Proof.
  unfold no_sep. induction w as [|c w IH]; simpl; [done|].
  intros [Hc Hw]%orb_false_elim. apply bool_decide_eq_false in Hc.
  rewrite decide_False by done. by rewrite IH.
Qed.

Lemma split_app_sep (w s : string) :
  no_sep w → split (w +:+ String pathsep s) = w :: split s.
Proof.
  unfold no_sep. induction w as [|c w IH]; simpl.
  - by intros _.
  - intros [Hc Hw]%orb_false_elim. apply bool_decide_eq_false in Hc.
    rewrite decide_False by done. by rewrite IH.
Qed.

Lemma split_join (l : list string) :
  l ≠ [] → Forall no_sep l → split (join l) = l.
Proof.
  induction l as [|w [|w' ws] IH]; intros Hne Hall; [done| |].
  - simpl. apply split_single. by inversion Hall.
  - inversion_clear Hall as [|? ? Hw Hrest].
    change (join (w :: w' :: ws)) with (w +:+ String pathsep (join (w' :: ws))).
    rewrite split_app_sep by done. by rewrite IH.
Qed.

(** ** Filtering the ambient list *)

Lemma filter_outside_none (U : gset string) (l : list string) :
  (∀ p, p ∈ l → p ∈ U) → filter (λ p, p ∉ U) l = [].
Proof.
  induction l as [|x l IH]; intros Hall; [done|].
  rewrite filter_cons_False by (intros Hx; apply Hx, Hall, elem_of_cons; by left).
  apply IH. intros p Hp. apply Hall, elem_of_cons. by right.
Qed.

Lemma filter_outside_all (U : gset string) (l : list string) :
  (∀ p, p ∈ l → p ∉ U) → filter (λ p, p ∉ U) l = l.
Proof.
  induction l as [|x l IH]; intros Hall; [done|].
  rewrite filter_cons_True by (apply Hall, elem_of_cons; by left).
  f_equal. apply IH. intros p Hp. apply Hall, elem_of_cons. by right.
Qed.

Lemma new_path_list_fresh (U : gset string) (env_paths current : list string) :
  (∀ p, p ∈ env_paths → p ∈ U) →
  new_path_list U env_paths current
  = remove_dups (reverse env_paths) ++ filter (λ p, p ∉ U) current.
Proof.
  intros Hsub. unfold new_path_list. apply insert_front_fresh.
  intros p Hp [Hout _]%list_elem_of_filter. by apply Hout, Hsub.
Qed.

(** Once [PATH] holds the joined list, building the list again from
    it gives the same value of [PATH]. *)
Lemma new_path_list_stable (U : gset string) (env_paths : list string) (ambient : string) :
  (∀ p, p ∈ env_paths → p ∈ U) →
  Forall no_sep env_paths →
  let first := new_path_list U env_paths (split ambient) in
  join (new_path_list U env_paths (split (join first))) = join first.
Proof.
  intros Hsub Hsep first. unfold first.
  rewrite !new_path_list_fresh by done.
  set (front := remove_dups (reverse env_paths)).
  set (rest := filter (λ p, p ∉ U) (split ambient)).
  destruct (decide (front ++ rest = [])) as [Hnil|Hnonempty].
  - rewrite Hnil. apply app_eq_nil in Hnil as [-> ->]. simpl.
    rewrite filter_cons, filter_nil.
    by case_decide.
  - rewrite split_join; [|done|].
    + rewrite filter_app.
      rewrite (filter_outside_none U front).
      * rewrite (filter_outside_all U rest); [done|].
        by intros p [Hout _]%list_elem_of_filter.
      * intros p Hp. apply Hsub.
        apply (proj1 (elem_of_remove_dups _ _)) in Hp.
        by apply (proj1 (elem_of_reverse _ _)) in Hp.
    + apply Forall_app. split.
      * apply Forall_forall. intros p Hp.
        apply (proj1 (elem_of_remove_dups _ _)) in Hp.
        apply (proj1 (elem_of_reverse _ _)) in Hp.
        by apply (proj1 (Forall_forall _ _) Hsep).
      * apply Forall_forall. intros p [_ Hp]%list_elem_of_filter.
        by apply (proj1 (Forall_forall _ _) (split_no_sep ambient)).
Qed.

(** * Files of any content: properties *)

(** ** The pointer *)

(** C7 on the code: a pointer file that is missing, cannot be opened,
    is blank or is not JSON reads as "base", and a pointer file that
    holds a document reads as that document; but when the bytes of the
    pointer file do not decode, reading raises [UnicodeDecodeError],
    which is neither of the two exceptions caught, so the read fails
    its caller: [list] ends in that exception before it prints a
    line. *)
Theorem pointer_read_undecodable (st : Raw.state) :
  (Raw.pointer st = Some Raw.Undecodable →
   Raw.get_current_env_name st = Raise UnicodeDecodeError ∧
   ∀ ENV_BASE_DIR py_eq py_str,
     Raw.list_command ENV_BASE_DIR py_eq py_str st = Raw.Uncaught UnicodeDecodeError [] st) ∧
  (Raw.pointer st = None ∨ Raw.pointer st = Some Raw.Unreadable ∨
   Raw.pointer st = Some (Raw.Content Blank) ∨
   Raw.pointer st = Some (Raw.Content Garbage) →
   Raw.get_current_env_name st = Ok (Raw.JString "base")) ∧
  (∀ d, Raw.pointer st = Some (Raw.Content (Json d)) →
        Raw.get_current_env_name st = Ok d).
Proof.
  unfold Raw.list_command, Raw.get_current_env_name.
  split; [by intros ->|].
  split; [by intros [-> | [-> | [-> | ->]]]|].
  by intros d ->.
Qed.

Lemma pointer_read_undecodable_witness :
  Raw.get_current_env_name (Raw.set_pointer (Some Raw.Undecodable) Raw.st_two)
  = Raise UnicodeDecodeError.
Proof.
  destruct (pointer_read_undecodable (Raw.set_pointer (Some Raw.Undecodable) Raw.st_two))
    as [Hbad _].
  by apply Hbad.
Defined.

(** The read of the first layer is the read of the second on the
    pointer files that the first layer has. *)
Lemma raw_get_current_env_name_refines (st : state) :
  Raw.get_current_env_name (raw_of_state st)
  = match get_current_env_name st with
    | Ok n => Ok (Raw.JString n)
    | Raise e => Raise e
    end.
Proof.
  unfold Raw.get_current_env_name, get_current_env_name. simpl.
  by destruct (pointer st) as [[|[| |n]]|].
Qed.

(** ** The validated listing *)

Section RawListing.
Variable ENV_BASE_DIR : string.
Variable py_eq : Raw.json → Raw.json → bool.
Variable py_str : Raw.json → string.

Lemma raw_existsb_name (items : list Raw.json) :
  Raw.JString "name" ∈ items →
  existsb (Raw.is_string "name") items = true.
Proof.
  induction items as [|x items IH]; intros Hin.
  - by apply elem_of_nil in Hin.
  - simpl. apply elem_of_cons in Hin as [<-|Hin].
    + done.
    + rewrite IH by done. apply orb_true_r.
Qed.

Lemma raw_list_entry_raises (current_env : Raw.json) (n : string) (f : Raw.file) :
  Raw.unexpected f →
  Raw.list_entry ENV_BASE_DIR py_eq py_str current_env n f
  = Raise (if f is Raw.Undecodable then UnicodeDecodeError else TypeError).
Proof.
  intros [->|(d & -> & Hd)]; [done|].
  destruct Hd as [->|[[b ->]|[[x ->]|[(items & -> & Hin)|(s & -> & Hs)]]]]; try done.
  - unfold Raw.list_entry; simpl. by rewrite raw_existsb_name.
  - unfold Raw.list_entry; simpl. by rewrite Hs.
Qed.

Lemma raw_list_loop_stops (current_env : Raw.json) (files : list (string * Raw.file))
    (n : string) (f : Raw.file) :
  (n, f) ∈ files → n ≠ "base" → Raw.unexpected f →
  ∃ lines e, Raw.list_loop ENV_BASE_DIR py_eq py_str current_env files = (lines, Some e).
Proof.
  intros Hin Hne Hbad.
  induction files as [|[k g] files IH]; [by apply elem_of_nil in Hin|].
  simpl. case_decide as Hk.
  - apply IH. apply elem_of_cons in Hin as [[= -> ->]|Hin]; [done|done].
  - destruct (Raw.list_entry ENV_BASE_DIR py_eq py_str current_env k g) as [line|e] eqn:Hentry.
    + apply elem_of_cons in Hin as [[= <- <-]|Hin].
      * rewrite raw_list_entry_raises in Hentry by done. discriminate.
      * destruct (IH Hin) as (lines & e & ->). by eexists _, _.
    + by eexists _, _.
Qed.

(** C8 on the code: a record file other than [base.json] that cannot
    be opened, is blank, is not JSON, or holds an object without the
    field [name] gets the line that names the file, and the loop goes
    on; an object with the field [name] gets the line with its name,
    marked active when the name equals the current environment, and
    the loop goes on.  But a record file whose bytes do not decode
    raises [UnicodeDecodeError] in [read_text], and a record file that
    holds [null], a boolean, a number, an array with the item "name" or
    a string in which "name" occurs raises [TypeError] in the test for
    the field or in the lookup; neither exception is caught, so the
    listing ends there, and the records that the loop had not reached
    are not listed. *)
Theorem listing_stops_at_unexpected_record (st : Raw.state) (n : string) (f : Raw.file) :
  plain n → n ≠ "base" → Raw.records st !! n = Some f →
  (Raw.unexpected f →
   (∀ current_env rest,
      Raw.list_loop ENV_BASE_DIR py_eq py_str current_env ((n, f) :: rest)
      = ([], Some (if f is Raw.Undecodable then UnicodeDecodeError else TypeError))) ∧
   ∃ e out, Raw.list_command ENV_BASE_DIR py_eq py_str st = Raw.Uncaught e out st) ∧
  (f = Raw.Unreadable ∨ f = Raw.Content Blank ∨ f = Raw.Content Garbage ∨
   (∃ members, f = Raw.Content (Json (Raw.JObject members)) ∧
               Raw.member "name" members = None) →
   ∀ current_env rest,
     Raw.list_loop ENV_BASE_DIR py_eq py_str current_env ((n, f) :: rest)
     = (invalid_line ENV_BASE_DIR n
        :: (Raw.list_loop ENV_BASE_DIR py_eq py_str current_env rest).1,
        (Raw.list_loop ENV_BASE_DIR py_eq py_str current_env rest).2)) ∧
  (∀ members v,
     f = Raw.Content (Json (Raw.JObject members)) →
     Raw.member "name" members = Some v →
     ∀ current_env rest,
       Raw.list_loop ENV_BASE_DIR py_eq py_str current_env ((n, f) :: rest)
       = ((if Raw.eqb py_eq v current_env
           then "+ " +:+ Raw.format py_str v +:+ " (active)"
           else "+ " +:+ Raw.format py_str v)
          :: (Raw.list_loop ENV_BASE_DIR py_eq py_str current_env rest).1,
          (Raw.list_loop ENV_BASE_DIR py_eq py_str current_env rest).2)).
Proof.
  intros Hplain Hne Hf. split; [|split].
  - intros Hbad. split.
    + intros current_env rest. simpl. rewrite decide_False by done.
      by rewrite raw_list_entry_raises.
    + unfold Raw.list_command.
      destruct (Raw.get_current_env_name st) as [current_env|e]; simpl;
        [|by eexists _, _].
      destruct (raw_list_loop_stops current_env (glob_json (Raw.records st)) n f)
        as (lines & e & ->); [by apply elem_of_glob_json|done|done|].
      by eexists _, _.
  - intros Hkind current_env rest. simpl. rewrite decide_False by done.
    destruct (Raw.list_loop ENV_BASE_DIR py_eq py_str current_env rest) as [lines stop].
    destruct Hkind as [->|[->|[->|(members & -> & Hm)]]]; try done.
    unfold Raw.list_entry; simpl. by rewrite Hm.
  - intros members v -> Hm current_env rest. simpl. rewrite decide_False by done.
    destruct (Raw.list_loop ENV_BASE_DIR py_eq py_str current_env rest) as [lines stop].
    unfold Raw.list_entry; simpl. by rewrite Hm.
Qed.

(** On the record files that the first layer has, the body of the
    loop prints what the first layer says. *)
Lemma raw_list_entry_refines (current_env n : string) (f : file config) :
  Raw.list_entry ENV_BASE_DIR py_eq py_str (Raw.JString current_env) n
    (raw_of_file raw_of_config f)
  = list_entry ENV_BASE_DIR current_env n f.
Proof.
  destruct f as [|[| |[[name|] [paths|]]]]; try done.
  all: unfold Raw.list_entry, list_entry, name_line; simpl.
  all: by case_bool_decide; [rewrite decide_True|rewrite decide_False].
Qed.
End RawListing.

Lemma listing_stops_at_unexpected_record_witness :
  ∃ e out, Raw.list_command "/envs" (λ _ _, false) (λ _, "") Raw.st_null
           = Raw.Uncaught e out Raw.st_null.
Proof.
  destruct (listing_stops_at_unexpected_record "/envs" (λ _ _, false) (λ _, "")
              Raw.st_null "odd" (Raw.Content (Json Raw.JNull))) as [Hstop _].
  - reflexivity.
  - discriminate.
  - reflexivity.
  - apply Hstop. right. eexists. split; [reflexivity|]. by left.
Defined.

(** ** The scan of the registry *)

Lemma raw_strings_of_fmap (l : list string) :
  Raw.strings_of (Raw.JString <$> l) = Some l.
Proof.
  induction l as [|p l IH]; [done|].
  rewrite fmap_cons. cbn [Raw.strings_of]. by rewrite IH.
Qed.

Lemma raw_strings_of_inv (items : list Raw.json) (l : list string) :
  Raw.strings_of items = Some l → items = Raw.JString <$> l.
Proof.
  revert l. induction items as [|v items IH]; intros l; simpl.
  - by intros [= <-].
  - destruct v; try done.
    destruct (Raw.strings_of items) as [l'|]; [|done]. simpl.
    intros [= <-]. simpl. by rewrite (IH l').
Qed.

Lemma raw_update_strings (acc : gset string) (l : list string) :
  Raw.update acc (Raw.JString <$> l) = Ok (acc ∪ list_to_set l).
Proof.
  revert acc. induction l as [|p l IH]; intros acc; simpl.
  - by rewrite (right_id_L ∅ (∪)).
  - rewrite IH. by rewrite (assoc_L (∪)).
Qed.

(** One turn of the loop on a file that can be processed. *)
Lemma raw_scan_step (f : Raw.file) (l : list string) (acc : gset string) :
  Raw.readable_paths f = Some l →
  try_except
    (config ← Raw.json_load f;
     paths ← Raw.get "paths" (Raw.JArray []) config;
     items ← Raw.iter paths;
     Raw.update acc items)
    [JSONDecodeError; OSError]
    (Ok acc)
  = Ok (acc ∪ list_to_set l).
Proof.
  destruct f as [| |[| |d]]; simpl; try done.
  1-3: intros [= <-]; simpl; by rewrite (right_id_L ∅ (∪)).
  destruct d as [| | | | |members]; simpl; try done.
  destruct (Raw.member "paths" members) as [v|]; simpl.
  - destruct v as [| | | |items|]; try done.
    intros ->%raw_strings_of_inv. simpl. by rewrite raw_update_strings.
  - intros [= <-]. simpl. by rewrite (right_id_L ∅ (∪)).
Qed.

Lemma raw_collect_paths_union (files : list (string * Raw.file)) (acc : gset string) :
  Forall (λ nf, is_Some (Raw.readable_paths nf.2)) files →
  Raw.collect_paths files acc
  = Ok (acc ∪ ⋃ ((λ nf, list_to_set (default [] (Raw.readable_paths nf.2))) <$> files)).
Proof.
  intros Hall. revert acc.
  induction Hall as [|[n f] files [l Hl] Hall IH]; intros acc; simpl.
  - by rewrite (right_id_L ∅ (∪)).
  - simpl in Hl. rewrite (raw_scan_step f l acc Hl). simpl.
    rewrite IH, Hl. simpl. by rewrite (assoc_L (∪)).
Qed.

Lemma raw_all_envwrap_paths (st : Raw.state) :
  Raw.regular st → Raw.all_envwrap_paths st = Ok (Raw.glob_path_set st).
Proof.
  intros Hreg. unfold Raw.all_envwrap_paths, Raw.glob_path_set.
  rewrite raw_collect_paths_union by done. by rewrite (left_id_L ∅ (∪)).
Qed.

Lemma raw_elem_of_glob_path_set (st : Raw.state) (p : string) :
  p ∈ Raw.glob_path_set st ↔
  ∃ n f l, plain n ∧ Raw.records st !! n = Some f ∧
           Raw.readable_paths f = Some l ∧ p ∈ l.
Proof.
  unfold Raw.glob_path_set. rewrite elem_of_union_list. split.
  - intros (X & HX & Hp).
    apply list_elem_of_fmap in HX as ([n f] & -> & Hnf).
    apply elem_of_glob_json in Hnf as [Hplain Hnf].
    apply elem_of_list_to_set in Hp. simpl in Hp.
    destruct (Raw.readable_paths f) as [l|] eqn:Hl; simpl in Hp.
    + by exists n, f, l.
    + by apply elem_of_nil in Hp.
  - intros (n & f & l & Hplain & Hnf & Hl & Hp).
    exists (list_to_set (default [] (Raw.readable_paths f))). split.
    + apply list_elem_of_fmap. exists (n, f). split; [done|].
      by apply elem_of_glob_json.
    + apply elem_of_list_to_set. by rewrite Hl.
Qed.

Lemma raw_regular_lookup (st : Raw.state) (n : string) (f : Raw.file) :
  Raw.regular st → plain n → Raw.records st !! n = Some f →
  is_Some (Raw.readable_paths f).
Proof.
  intros Hreg Hplain Hf.
  apply (proj1 (Forall_forall _ _) Hreg (n, f)).
  by apply elem_of_glob_json.
Qed.

Lemma raw_stored_paths_in_glob (st : Raw.state) (name p : string) :
  plain name → p ∈ Raw.stored_paths st name → p ∈ Raw.glob_path_set st.
Proof.
  unfold Raw.stored_paths. intros Hplain Hp.
  destruct (Raw.records st !! name) as [f|] eqn:Hf; simpl in Hp.
  - destruct (Raw.readable_paths f) as [l|] eqn:Hl; simpl in Hp.
    + apply raw_elem_of_glob_path_set. by exists name, f, l.
    + by apply elem_of_nil in Hp.
  - by apply elem_of_nil in Hp.
Qed.

(** ** Activation in the process *)

Lemma raw_Env_init (st : Raw.state) (name : string) :
  (∀ f, Raw.records st !! name = Some f → is_Some (Raw.readable_paths f)) →
  Raw.Env.init name st
  = Ok (Raw.Env.Make name (Raw.JArray (Raw.JString <$> Raw.stored_paths st name))).
Proof.
  unfold Raw.Env.init, Raw.Env.load, Raw.stored_paths; simpl.
  destruct (Raw.records st !! name) as [f|]; [|done].
  intros Hf. destruct (Hf f eq_refl) as [l Hl]. simpl. rewrite Hl. simpl.
  destruct f as [| |[| |d]]; simpl in *; try done.
  1-3: by injection Hl as <-.
  destruct d as [| | | | |members]; simpl in *; try done.
  destruct (Raw.member "paths" members) as [v|]; simpl.
  - destruct v as [| | | |items|]; try done.
    by apply raw_strings_of_inv in Hl as ->.
  - by injection Hl as <-.
Qed.

Lemma raw_activate_in_process (st : Raw.state) (name : string) :
  Raw.env_exists st name → Raw.regular st →
  (∀ f, Raw.records st !! name = Some f → is_Some (Raw.readable_paths f)) →
  Raw.activate name st
  = Raw.Returned
      (Raw.activate_report name (Raw.stored_paths st name))
      (Raw.set_PATH
         (join (new_path_list (Raw.glob_path_set st) (Raw.stored_paths st name)
                  (Raw.current_path st)))
         (Raw.set_current_env name st)).
Proof.
  intros Hex Hreg Hname. unfold Raw.activate.
  case_decide as Hno.
  { destruct Hno as [Hne Hnone], Hex as [->|[f Hf]]; congruence. }
  rewrite raw_all_envwrap_paths by done. simpl.
  rewrite (raw_Env_init (Raw.set_current_env name st) name) by done. simpl.
  by rewrite raw_strings_of_fmap.
Qed.

Lemma raw_activate_path_list_total (st : Raw.state) (name : string) :
  Raw.regular st →
  (∀ f, Raw.records st !! name = Some f → is_Some (Raw.readable_paths f)) →
  Raw.activate_path_list name st
  = Some (new_path_list (Raw.glob_path_set st) (Raw.stored_paths st name)
            (Raw.current_path st)).
Proof.
  intros Hreg Hname. unfold Raw.activate_path_list.
  rewrite raw_all_envwrap_paths by done.
  rewrite (raw_Env_init (Raw.set_current_env name st) name) by done. simpl.
  by rewrite raw_strings_of_fmap.
Qed.

Lemma raw_new_path_list_glob (st : Raw.state) (name : string) (current : list string) :
  plain name →
  new_path_list (Raw.glob_path_set st) (Raw.stored_paths st name) current
  = remove_dups (reverse (Raw.stored_paths st name))
    ++ filter (λ p, p ∉ Raw.glob_path_set st) current.
Proof.
  intros Hplain. unfold new_path_list. apply insert_front_fresh.
  intros p Hp [Hout _]%list_elem_of_filter.
  by apply Hout, (raw_stored_paths_in_glob st name).
Qed.

(** A file that does not decode stops the scan. *)
Lemma raw_collect_paths_raises (files : list (string * Raw.file)) (acc : gset string)
    (n : string) :
  (n, Raw.Undecodable) ∈ files → ∃ e, Raw.collect_paths files acc = Raise e.
Proof.
  revert acc. induction files as [|[k g] files IH]; intros acc Hin.
  - by apply elem_of_nil in Hin.
  - simpl.
    destruct (try_except _ _ _) as [acc'|e] eqn:Hstep; simpl; [|by eexists].
    apply elem_of_cons in Hin as [[= <- <-]|Hin]; [done|].
    by apply IH.
Qed.

(** X25: when a record file that the scan visits does not decode, the
    activation of an existing environment ends in an uncaught exception
    raised by the scan, before the pointer is written: nothing has
    changed and nothing was printed. *)
Theorem activation_stops_at_undecodable_record (st : Raw.state) (name bad : string) :
  Raw.env_exists st name → plain bad →
  Raw.records st !! bad = Some Raw.Undecodable →
  ∃ e, Raw.activate name st = Raw.Uncaught e [] st.
Proof.
  intros Hex Hplain Hbad. unfold Raw.activate.
  case_decide as Hno.
  { destruct Hno as [Hne Hnone], Hex as [->|[f Hf]]; congruence. }
  unfold Raw.all_envwrap_paths.
  destruct (raw_collect_paths_raises (glob_json (Raw.records st)) ∅ bad) as [e ->].
  - by apply elem_of_glob_json.
  - by eexists.
Qed.

Lemma activation_stops_at_undecodable_record_witness :
  ∃ e, Raw.activate "t" Raw.st_undecodable = Raw.Uncaught e [] Raw.st_undecodable.
Proof.
  apply (activation_stops_at_undecodable_record Raw.st_undecodable "t" "bad").
  - right. by eexists.
  - reflexivity.
  - reflexivity.
Defined.

(** ** The first layer agrees with the second *)

Lemma raw_readable_paths_of_file (f : file config) :
  Raw.readable_paths (raw_of_file raw_of_config f) = Some (readable_paths f).
Proof.
  destruct f as [|[| |[name paths]]]; try done. simpl.
  destruct name as [name|], paths as [paths|]; simpl; try done.
  all: by rewrite raw_strings_of_fmap.
Qed.

Lemma raw_regular_of_state (st : state) : Raw.regular (raw_of_state st).
Proof.
  apply Forall_forall. intros [n f] [_ Hf]%elem_of_glob_json. simpl in *.
  rewrite lookup_fmap in Hf.
  destruct (records st !! n) as [g|]; [|done]. injection Hf as <-.
  rewrite raw_readable_paths_of_file. by eexists.
Qed.

Lemma raw_stored_paths_of_state (st : state) (name : string) :
  Raw.stored_paths (raw_of_state st) name = stored_paths st name.
Proof.
  unfold Raw.stored_paths, stored_paths. simpl. rewrite lookup_fmap.
  destruct (records st !! name) as [f|]; [|done]. simpl.
  by rewrite raw_readable_paths_of_file.
Qed.

Lemma raw_glob_path_set_of_state (st : state) :
  Raw.glob_path_set (raw_of_state st) = glob_path_set st.
Proof.
  apply set_eq. intros p.
  rewrite raw_elem_of_glob_path_set, elem_of_glob_path_set. split.
  - intros (n & f & l & Hplain & Hf & Hl & Hp). simpl in Hf.
    rewrite lookup_fmap in Hf.
    destruct (records st !! n) as [g|] eqn:Hg; [|done]. injection Hf as <-.
    rewrite raw_readable_paths_of_file in Hl. injection Hl as <-.
    by exists n, g.
  - intros (n & g & Hplain & Hg & Hp).
    exists n, (raw_of_file raw_of_config g), (readable_paths g).
    split; [done|]. split; [simpl; by rewrite lookup_fmap, Hg|].
    split; [apply raw_readable_paths_of_file|done].
Qed.

(** On the states that the first layer has, the in-process activation
    of the second layer does what that of the first does. *)
Lemma raw_activate_refines (st : state) (name : string) :
  Raw.activate name (raw_of_state st) = raw_of_outcome (activate name ExportNone st).
Proof.
  destruct (decide (name ≠ "base" ∧ records st !! name = None)) as [Hno|Hex].
  - unfold Raw.activate, activate. rewrite (decide_True _ _ Hno).
    rewrite decide_True; [done|].
    destruct Hno as [Hne Hnone]. split; [done|].
    simpl. by rewrite lookup_fmap, Hnone.
  - assert (env_exists st name) as Hexists.
    { destruct (decide (name = "base")) as [->|Hne]; [by left|]. right.
      destruct (records st !! name) as [f|] eqn:Hf; [by eexists|].
      exfalso. by apply Hex. }
    rewrite (activate_in_process st name Hexists).
    rewrite raw_activate_in_process.
    + simpl. rewrite raw_stored_paths_of_state, raw_glob_path_set_of_state.
      f_equal. unfold Raw.activate_report, activate_report. simpl.
      by destruct (stored_paths st name).
    + destruct Hexists as [->|[f Hf]]; [by left|]. right.
      simpl. rewrite lookup_fmap, Hf. by eexists.
    + apply raw_regular_of_state.
    + intros f Hf. simpl in Hf. rewrite lookup_fmap in Hf.
      destruct (records st !! name) as [g|]; [|done]. injection Hf as <-.
      rewrite raw_readable_paths_of_file. by eexists.
Qed.

(** ** The path list of an activation *)

(** C1, as stated, fails.  With the stored paths [/a], [/b] and the
    ambient list [/usr/bin], activation builds [/b], [/a], [/usr/bin],
    not the stored order followed by the ambient entries.  For the
    environment [sub/x], whose record file lies below the registry
    directory, the scan does not read the record: its path [/p] stays
    where it was in the ambient list, and the result does not begin
    with it.  And beside a record file whose bytes do not decode, the
    activation of any environment ends in [UnicodeDecodeError] and
    builds no list. *)
Lemma activation_stored_order_counterexample :
  (Raw.env_exists Raw.st_two "t" ∧ plain "t" ∧ Raw.regular Raw.st_two ∧
   Raw.stored_paths Raw.st_two "t" = ["/a"; "/b"] ∧
   Raw.activate_path_list "t" Raw.st_two = Some ["/b"; "/a"; "/usr/bin"] ∧
   ¬ Raw.activation_in_stored_order "t" Raw.st_two) ∧
  (Raw.env_exists Raw.st_sub "sub/x" ∧ Raw.regular Raw.st_sub ∧
   Raw.stored_paths Raw.st_sub "sub/x" = ["/p"] ∧
   Raw.activate_path_list "sub/x" Raw.st_sub = Some ["/usr/bin"; "/p"] ∧
   ¬ Raw.activation_in_stored_order "sub/x" Raw.st_sub) ∧
  (Raw.env_exists Raw.st_undecodable "t" ∧ plain "t" ∧
   Raw.activate "t" Raw.st_undecodable
   = Raw.Uncaught UnicodeDecodeError [] Raw.st_undecodable ∧
   ¬ Raw.activation_in_stored_order "t" Raw.st_undecodable).
Proof.
  split; [|split].
  - split; [right; by eexists|]. split; [reflexivity|].
    split; [apply (bool_decide_unpack _); by vm_compute|].
    split; [reflexivity|].
    split; [by vm_compute|].
    unfold Raw.activation_in_stored_order. vm_compute. discriminate.
  - split; [right; by eexists|].
    split; [apply (bool_decide_unpack _); by vm_compute|].
    split; [reflexivity|].
    split; [by vm_compute|].
    unfold Raw.activation_in_stored_order. vm_compute. discriminate.
  - split; [right; by eexists|]. split; [reflexivity|].
    split; [by vm_compute|].
    unfold Raw.activation_in_stored_order. vm_compute. discriminate.
Qed.

(** C1, amended: for every state in which the scan can process every
    record file it visits, and every existing target whose name is
    plain, activation drops from the ambient list the entries of the
    set that the scan builds, keeping the order of the others, then
    inserts the target's paths one at a time at the front, skipping
    those already present; the list it joins into [PATH] is the
    target's distinct stored paths, in the reverse of the order in
    which they first occur in the record, followed by the filtered
    ambient entries. *)
Theorem activation_path_list (st : Raw.state) (name : string) :
  plain name → Raw.env_exists st name → Raw.regular st →
  let stored := Raw.stored_paths st name in
  let U := Raw.glob_path_set st in
  let L := remove_dups (reverse stored)
           ++ filter (λ p, p ∉ U) (Raw.current_path st) in
  Raw.all_envwrap_paths st = Ok U ∧
  (∀ p, p ∈ U ↔ ∃ n f l, plain n ∧ Raw.records st !! n = Some f ∧
                         Raw.readable_paths f = Some l ∧ p ∈ l) ∧
  Raw.Env.init name (Raw.set_current_env name st)
  = Ok (Raw.Env.Make name (Raw.JArray (Raw.JString <$> stored))) ∧
  Raw.activate_path_list name st = Some L ∧
  ∃ out, Raw.activate name st
         = Raw.Returned out (Raw.set_PATH (join L) (Raw.set_current_env name st)).
Proof.
  intros Hplain Hex Hreg stored U L.
  assert (∀ f, Raw.records st !! name = Some f → is_Some (Raw.readable_paths f))
    as Hname by (intros f Hf; by apply (raw_regular_lookup st name)).
  split; [by apply raw_all_envwrap_paths|].
  split; [apply raw_elem_of_glob_path_set|].
  split; [by apply (raw_Env_init (Raw.set_current_env name st))|].
  split.
  - rewrite raw_activate_path_list_total by done. f_equal.
    by apply raw_new_path_list_glob.
  - eexists. rewrite raw_activate_in_process by done.
    by rewrite raw_new_path_list_glob.
Qed.

Lemma activation_path_list_witness :
  Raw.activate_path_list "t" Raw.st_repeated = Some ["/b"; "/a"; "/usr/bin"].
Proof.
  assert (Raw.env_exists Raw.st_repeated "t") as Hex by (right; by eexists).
  assert (Raw.regular Raw.st_repeated) as Hreg
    by (apply (bool_decide_unpack _); by vm_compute).
  destruct (activation_path_list Raw.st_repeated "t" eq_refl Hex Hreg)
    as (_ & _ & _ & HL & _).
  rewrite HL. by vm_compute.
Defined.

(** ** No leak between environments *)

(** C2, as stated, fails.  The record of [sub/x] lies below the
    registry directory, so the scan does not learn its path [/p], and
    the activation of another environment leaves [/p] in [PATH].
    When the second environment stores [/a:/b], joining and splitting
    [PATH] brings back [/a], a path of the first.  When the first
    stores the empty string and nothing else is left, the empty value
    of [PATH] splits into the empty string.  And beside a record file
    whose bytes do not decode, neither activation returns. *)
Lemma no_cross_environment_leak_counterexample :
  (Raw.regular Raw.st_sub_other ∧
   Raw.stored_paths Raw.st_sub_other "sub/x" = ["/p"] ∧
   Raw.stored_paths Raw.st_sub_other "o" = ["/q"] ∧
   ¬ Raw.no_leak "sub/x" "o" Raw.st_sub_other) ∧
  (Raw.regular Raw.st_joined ∧
   Raw.stored_paths Raw.st_joined "e1" = ["/a"] ∧
   Raw.stored_paths Raw.st_joined "e2" = ["/a:/b"] ∧
   ¬ Raw.no_leak "e1" "e2" Raw.st_joined) ∧
  (Raw.regular Raw.st_empty_path ∧
   Raw.stored_paths Raw.st_empty_path "e1" = [""] ∧
   Raw.stored_paths Raw.st_empty_path "e2" = [] ∧
   ¬ Raw.no_leak "e1" "e2" Raw.st_empty_path) ∧
  (Raw.stored_paths Raw.st_undecodable "t" = ["/a"] ∧
   Raw.stored_paths Raw.st_undecodable "u" = ["/b"] ∧
   ¬ Raw.no_leak "t" "u" Raw.st_undecodable).
Proof.
  split; [|split; [|split]].
  - split; [apply (bool_decide_unpack _); by vm_compute|].
    split; [reflexivity|]. split; [reflexivity|].
    intros (out1 & st1 & out2 & st2 & Hfirst & Hsecond & Hnone).
    vm_compute in Hfirst. injection Hfirst as _ <-.
    vm_compute in Hsecond. injection Hsecond as _ <-.
    apply (Hnone "/p"); apply (bool_decide_unpack _); by vm_compute.
  - split; [apply (bool_decide_unpack _); by vm_compute|].
    split; [reflexivity|]. split; [reflexivity|].
    intros (out1 & st1 & out2 & st2 & Hfirst & Hsecond & Hnone).
    vm_compute in Hfirst. injection Hfirst as _ <-.
    vm_compute in Hsecond. injection Hsecond as _ <-.
    apply (Hnone "/a"); apply (bool_decide_unpack _); by vm_compute.
  - split; [apply (bool_decide_unpack _); by vm_compute|].
    split; [reflexivity|]. split; [reflexivity|].
    intros (out1 & st1 & out2 & st2 & Hfirst & Hsecond & Hnone).
    vm_compute in Hfirst. injection Hfirst as _ <-.
    vm_compute in Hsecond. injection Hsecond as _ <-.
    apply (Hnone ""); apply (bool_decide_unpack _); by vm_compute.
  - split; [reflexivity|]. split; [reflexivity|].
    intros (out1 & st1 & out2 & st2 & Hfirst & _).
    vm_compute in Hfirst. discriminate.
Qed.

(** C2, amended: in a state in which the scan can process every record
    file it visits, let E1, of plain name, and E2 have records that
    hold documents of the expected shape, with no path of E1 among the
    paths of E2.  Then activating E1 and then E2 returns both times,
    and the list that the second activation joins into [PATH] holds no
    path of E1.  When, besides, no path of E2 holds the separator and
    E1 does not store the empty string, no entry of [PATH] after the
    two activations is a path of E1. *)
Theorem no_cross_environment_leak (st : Raw.state) (E1 E2 : string)
    (d1 d2 : Raw.json) (P1 P2 : list string) :
  plain E1 → Raw.regular st →
  Raw.records st !! E1 = Some (Raw.Content (Json d1)) → Raw.shaped d1 = Some P1 →
  Raw.records st !! E2 = Some (Raw.Content (Json d2)) → Raw.shaped d2 = Some P2 →
  (∀ p, p ∈ P1 → p ∉ P2) →
  (∃ out1 st1 out2 st2 L,
     Raw.activate E1 st = Raw.Returned out1 st1 ∧
     Raw.activate E2 st1 = Raw.Returned out2 st2 ∧
     Raw.activate_path_list E2 st1 = Some L ∧
     Raw.PATH st2 = Some (join L) ∧
     ∀ p, p ∈ P1 → p ∉ L) ∧
  (Forall no_sep P2 → "" ∉ P1 → Raw.no_leak E1 E2 st).
Proof.
  intros Hplain Hreg H1 Hs1 H2 Hs2 Hdisj.
  assert (Raw.stored_paths st E1 = P1) as Hstored1
    by (unfold Raw.stored_paths; rewrite H1; simpl; by rewrite Hs1).
  assert (Raw.stored_paths st E2 = P2) as Hstored2
    by (unfold Raw.stored_paths; rewrite H2; simpl; by rewrite Hs2).
  assert (Raw.env_exists st E1) as Hex1 by (right; by eexists).
  assert (∀ f, Raw.records st !! E1 = Some f → is_Some (Raw.readable_paths f))
    as Hread1 by (intros f Hf; by apply (raw_regular_lookup st E1)).
  assert (∀ f, Raw.records st !! E2 = Some f → is_Some (Raw.readable_paths f))
    as Hread2.
  { intros f Hf. rewrite H2 in Hf. injection Hf as <-. simpl. by eexists. }
  pose proof (raw_activate_in_process st E1 Hex1 Hreg Hread1) as Hact1.
  set (st1 := Raw.set_PATH _ (Raw.set_current_env E1 st)) in Hact1.
  assert (Raw.regular st1) as Hreg1 by done.
  assert (Raw.env_exists st1 E2) as Hex2 by (right; by eexists).
  pose proof (raw_activate_in_process st1 E2 Hex2 Hreg1 Hread2) as Hact2.
  set (L := new_path_list (Raw.glob_path_set st1) (Raw.stored_paths st1 E2)
              (Raw.current_path st1)) in Hact2.
  assert (∀ p, p ∈ P1 → p ∉ L) as Hlist.
  { intros p Hp [Hin|Hin]%elem_of_insert_front.
    - change (Raw.stored_paths st1 E2) with (Raw.stored_paths st E2) in Hin.
      rewrite Hstored2 in Hin. by apply (Hdisj p).
    - apply list_elem_of_filter in Hin as [Hout _]. apply Hout.
      apply (raw_stored_paths_in_glob st E1); [done|]. by rewrite Hstored1. }
  split.
  - eexists _, st1, _, _, L.
    split; [exact Hact1|]. split; [exact Hact2|].
    split; [by apply raw_activate_path_list_total|]. split; [done|].
    exact Hlist.
  - intros Hsep Hempty.
    eexists _, st1, _, _.
    split; [exact Hact1|]. split; [exact Hact2|].
    rewrite Hstored1. intros p Hp.
    change (p ∉ split (join L)).
    destruct (decide (L = [])) as [->|Hne].
    + simpl. intros ->%list_elem_of_singleton. done.
    + rewrite split_join; [by apply Hlist|done|].
      apply Forall_forall. intros x [Hx|Hx]%elem_of_insert_front.
      * change (Raw.stored_paths st1 E2) with (Raw.stored_paths st E2) in Hx.
        rewrite Hstored2 in Hx.
        by apply (proj1 (Forall_forall _ _) Hsep).
      * apply list_elem_of_filter in Hx as [_ Hx].
        by apply (proj1 (Forall_forall _ _) (split_no_sep _)) in Hx.
Qed.

Lemma no_cross_environment_leak_witness :
  Raw.no_leak "dev" "ci" Raw.st_dev_ci.
Proof.
  apply (no_cross_environment_leak Raw.st_dev_ci "dev" "ci"
           (Raw.JObject [("name", Raw.JString "dev");
                         ("paths", Raw.JArray [Raw.JString "/opt/dev/bin"])])
           (Raw.JObject [("name", Raw.JString "ci");
                         ("paths", Raw.JArray [Raw.JString "/opt/ci/bin"])])
           ["/opt/dev/bin"] ["/opt/ci/bin"]).
  - reflexivity.
  - apply (bool_decide_unpack _). by vm_compute.
  - reflexivity.
  - reflexivity.
  - reflexivity.
  - reflexivity.
  - intros p Hp Hq.
    apply list_elem_of_singleton in Hp, Hq. congruence.
  - by repeat constructor.
  - apply (bool_decide_unpack _). by vm_compute.
Defined.

(** ** Activating twice *)

(** C4, as stated, fails.  With the stored path [/x/a:b], which holds
    the separator, the first activation leaves [/x/a:b:/usr/bin] in
    [PATH] and the second leaves [/x/a:b:/x/a:b:/usr/bin].  For the
    environment [sub/x], whose record the scan does not read and which
    stores [/q], also stored by the record of [o], and [/p], the first
    activation leaves [/p:/q:/z] and the second [/q:/p:/z].  And
    beside a record file whose bytes do not decode, no activation
    returns. *)
Lemma activation_twice_counterexample :
  (Raw.env_exists Raw.st_colon "e" ∧ plain "e" ∧ Raw.regular Raw.st_colon ∧
   Raw.activate_path_list "e" Raw.st_colon = Some ["/x/a:b"; "/usr/bin"] ∧
   Raw.activate_path_list "e"
     (Raw.set_PATH "/x/a:b:/usr/bin" (Raw.set_current_env "e" Raw.st_colon))
   = Some ["/x/a:b"; "/x/a"; "b"; "/usr/bin"] ∧
   ¬ Raw.activation_idempotent "e" Raw.st_colon) ∧
  (Raw.env_exists Raw.st_sub_shared "sub/x" ∧ Raw.regular Raw.st_sub_shared ∧
   Forall no_sep (Raw.stored_paths Raw.st_sub_shared "sub/x") ∧
   Raw.activate_path_list "sub/x" Raw.st_sub_shared = Some ["/p"; "/q"; "/z"] ∧
   Raw.activate_path_list "sub/x"
     (Raw.set_PATH "/p:/q:/z" (Raw.set_current_env "sub/x" Raw.st_sub_shared))
   = Some ["/q"; "/p"; "/z"] ∧
   ¬ Raw.activation_idempotent "sub/x" Raw.st_sub_shared) ∧
  (Raw.env_exists Raw.st_undecodable "t" ∧ plain "t" ∧
   Forall no_sep (Raw.stored_paths Raw.st_undecodable "t") ∧
   ¬ Raw.activation_idempotent "t" Raw.st_undecodable).
Proof.
  split; [|split].
  - split; [right; by eexists|]. split; [reflexivity|].
    split; [apply (bool_decide_unpack _); by vm_compute|].
    split; [by vm_compute|]. split; [by vm_compute|].
    intros (out1 & st1 & out2 & st2 & Hfirst & Hsecond & Hsame).
    vm_compute in Hfirst. injection Hfirst as _ <-.
    vm_compute in Hsecond. injection Hsecond as _ <-.
    vm_compute in Hsame. discriminate.
  - split; [right; by eexists|].
    split; [apply (bool_decide_unpack _); by vm_compute|].
    split; [by repeat constructor|].
    split; [by vm_compute|]. split; [by vm_compute|].
    intros (out1 & st1 & out2 & st2 & Hfirst & Hsecond & Hsame).
    vm_compute in Hfirst. injection Hfirst as _ <-.
    vm_compute in Hsecond. injection Hsecond as _ <-.
    vm_compute in Hsame. discriminate.
  - split; [right; by eexists|]. split; [reflexivity|].
    split; [by repeat constructor|].
    intros (out1 & st1 & out2 & st2 & Hfirst & _).
    vm_compute in Hfirst. discriminate.
Qed.

(** C4, amended: in a state in which the scan can process every record
    file it visits, for every existing environment of plain name none
    of whose stored paths holds the path separator, activating it and
    then activating it again returns both times, and [PATH] after the
    second activation equals [PATH] after the first. *)
Theorem activation_twice_same_path (st : Raw.state) (name : string) :
  plain name → Raw.env_exists st name → Raw.regular st →
  Forall no_sep (Raw.stored_paths st name) →
  Raw.activation_idempotent name st.
Proof.
  intros Hplain Hex Hreg Hsep. unfold Raw.activation_idempotent.
  assert (∀ f, Raw.records st !! name = Some f → is_Some (Raw.readable_paths f))
    as Hname by (intros f Hf; by apply (raw_regular_lookup st name)).
  pose proof (raw_activate_in_process st name Hex Hreg Hname) as Hfirst.
  set (st1 := Raw.set_PATH _ (Raw.set_current_env name st)) in Hfirst.
  assert (Raw.env_exists st1 name) as Hex1 by done.
  assert (Raw.regular st1) as Hreg1 by done.
  pose proof (raw_activate_in_process st1 name Hex1 Hreg1 Hname) as Hsecond.
  eexists _, st1, _, _. split; [exact Hfirst|]. split; [exact Hsecond|].
  simpl. f_equal.
  apply (new_path_list_stable (Raw.glob_path_set st) (Raw.stored_paths st name));
    [|done].
  intros p Hp. by apply (raw_stored_paths_in_glob st name).
Qed.

Lemma activation_twice_same_path_witness :
  Raw.activation_idempotent "dev" Raw.st_dev_ci.
Proof.
  apply (activation_twice_same_path Raw.st_dev_ci "dev").
  - reflexivity.
  - right. by eexists.
  - apply (bool_decide_unpack _). by vm_compute.
  - by repeat constructor.
Defined.

(** ** Cloning *)

Lemma raw_save_lookup (self : Raw.Env.t) (st : Raw.state) :
  Raw.records (Raw.Env.save self st) !! Raw.Env.name self
  = Some (Raw.Content
            (Json (Raw.JObject [("name", Raw.JString (Raw.Env.name self));
                                ("paths", Raw.Env.env_paths self)]))).
Proof. unfold Raw.Env.save; simpl. by rewrite lookup_insert_eq. Qed.

Lemma raw_save_lookup_ne (self : Raw.Env.t) (st : Raw.state) (other : string) :
  Raw.Env.name self ≠ other →
  Raw.records (Raw.Env.save self st) !! other = Raw.records st !! other.
Proof. intros Hne. unfold Raw.Env.save; simpl. by rewrite lookup_insert_ne. Qed.

Lemma raw_Env_init_name (n : string) (st : Raw.state) (env : Raw.Env.t) :
  Raw.Env.init n st = Ok env → Raw.Env.name env = n.
Proof.
  unfold Raw.Env.init, Raw.Env.load; simpl.
  destruct (Raw.records st !! n) as [f|]; [|by intros [= <-]].
  destruct f as [| |[| |d]]; simpl; try done; try (by intros [= <-]).
  destruct d; simpl; try done; by intros [= <-].
Qed.

Lemma raw_clone_returns (source target : string) (st : Raw.state) (f : Raw.file) :
  target ≠ "base" →
  Raw.records st !! source = Some f → is_Some (Raw.readable_paths f) →
  (∀ g, Raw.records st !! target = Some g → is_Some (Raw.readable_paths g)) →
  Raw.clone source target st
  = Raw.Returned ["Cloned environment: " +:+ source +:+ " to " +:+ target]
      (Raw.Env.save
         (Raw.Env.Make target (Raw.JArray (Raw.JString <$> Raw.stored_paths st source)))
         st).
Proof.
  intros Hne Hf Hsource Htarget. unfold Raw.clone.
  rewrite decide_False by done.
  rewrite (raw_Env_init st source)
    by (intros g Hg; rewrite Hf in Hg; by injection Hg as <-).
  simpl. rewrite (raw_Env_init st target) by done. simpl.
  by rewrite decide_False by congruence.
Qed.

Lemma raw_mutate_frame (resolve : string → string) (m : Raw.mutation)
    (env : Raw.Env.t) (st : Raw.state) (other : string) :
  Raw.Env.name env ≠ other →
  Raw.Env.name (Raw.mutate resolve m (env, st)).1 = Raw.Env.name env ∧
  Raw.records (Raw.mutate resolve m (env, st)).2 !! other = Raw.records st !! other.
Proof.
  intros Hne.
  destruct m as [path|path|paths|]; simpl.
  - unfold Raw.Env.add_path.
    destruct (Raw.contains (resolve path) (Raw.Env.env_paths env)) as [[|]|e];
      simpl; try done.
    destruct (Raw.Env.env_paths env); simpl; try done.
    split; [done|]. by apply (raw_save_lookup_ne (Raw.Env.Make (Raw.Env.name env) _)).
  - unfold Raw.Env.remove_path.
    destruct (Raw.contains (resolve path) (Raw.Env.env_paths env)) as [[|]|e];
      simpl; try done.
    destruct (Raw.Env.env_paths env); simpl; try done.
    split; [done|]. by apply (raw_save_lookup_ne (Raw.Env.Make (Raw.Env.name env) _)).
  - split; [done|]. by apply (raw_save_lookup_ne (Raw.Env.Make (Raw.Env.name env) _)).
  - split; [done|]. by apply lookup_delete_ne.
Qed.

Lemma raw_mutations_frame (resolve : string → string) (ms : list Raw.mutation)
    (env : Raw.Env.t) (st : Raw.state) (other : string) :
  Raw.Env.name env ≠ other →
  Raw.records (foldl (λ envst m, Raw.mutate resolve m envst) (env, st) ms).2 !! other
  = Raw.records st !! other.
Proof.
  revert env st. induction ms as [|m ms IH]; intros env st Hne; [done|]. simpl.
  destruct (raw_mutate_frame resolve m env st other Hne) as [Hname Hrec].
  destruct (Raw.mutate resolve m (env, st)) as [env' st'] eqn:Hm. simpl in *.
  rewrite IH by congruence. done.
Qed.

(** C9, as stated, fails: cloning "t" onto itself is accepted, and
    adding a path to "t" afterwards changes what the target, "t",
    stores.  And when the target name has a record file whose bytes do
    not decode, [clone] ends in [UnicodeDecodeError] and writes
    nothing. *)
Lemma clone_onto_itself_counterexample :
  ("t" ≠ "base" ∧ is_Some (Raw.records Raw.st_two !! "t") ∧
   ¬ Raw.clone_is_independent id "t" "t" Raw.st_two) ∧
  ("copy" ≠ "base" ∧ "t" ≠ "copy" ∧
   is_Some (Raw.records Raw.st_copy_undecodable !! "t") ∧
   Raw.clone "t" "copy" Raw.st_copy_undecodable
   = Raw.Uncaught UnicodeDecodeError [] Raw.st_copy_undecodable ∧
   ¬ Raw.clone_is_independent id "t" "copy" Raw.st_copy_undecodable).
Proof.
  split.
  - split; [discriminate|]. split; [by eexists|].
    intros (out & st1 & Hclone & _ & Hframe).
    vm_compute in Hclone. injection Hclone as _ <-.
    specialize (Hframe [Raw.AddPath "/c"]).
    vm_compute in Hframe. discriminate.
  - split; [discriminate|]. split; [discriminate|]. split; [by eexists|].
    split; [by vm_compute|].
    intros (out & st1 & Hclone & _).
    vm_compute in Hclone. discriminate.
Qed.

(** C9, amended: for every existing source whose record file can be
    processed and every target other than "base" whose record file is
    not that of the source (the two names are plain and differ) and, if
    there is one, can be processed, [clone] returns, the target then
    stores the paths that the source had, and no later sequence of
    changes of the source (calls of [add_path] and [remove_path],
    assignments to its path list followed by [save], removals of its
    record file) changes the target's record. *)
Theorem clone_independent_of_source (resolve : string → string)
    (source target : string) (st : Raw.state) (f : Raw.file) :
  plain source → plain target →
  target ≠ "base" → source ≠ target →
  Raw.records st !! source = Some f → is_Some (Raw.readable_paths f) →
  (∀ g, Raw.records st !! target = Some g → is_Some (Raw.readable_paths g)) →
  Raw.clone_is_independent resolve source target st.
Proof.
  intros _ _ Hbase Hne Hf Hsource Htarget. unfold Raw.clone_is_independent.
  eexists _, _. split; [by apply (raw_clone_returns source target st f)|].
  set (st1 := Raw.Env.save _ st).
  assert (Raw.records st1 !! target
          = Some (Raw.record_of target (Raw.stored_paths st source)))
    as Hstored by apply (raw_save_lookup (Raw.Env.Make target _) st).
  split; [done|].
  intros ms. unfold Raw.mutate_env.
  destruct (Raw.Env.init source st1) as [env|e] eqn:Hinit; [|done].
  apply raw_Env_init_name in Hinit.
  rewrite raw_mutations_frame by congruence. done.
Qed.

Lemma clone_independent_of_source_witness :
  Raw.clone_is_independent id "t" "copy" Raw.st_two.
Proof.
  apply (clone_independent_of_source id "t" "copy" Raw.st_two
           (Raw.record_of "t" ["/a"; "/b"])).
  - reflexivity.
  - reflexivity.
  - discriminate.
  - discriminate.
  - reflexivity.
  - by eexists.
  - intros g Hg. by vm_compute in Hg.
Defined.

(** * Further properties

    The properties below are about the first layer: the pointer and
    the record files are text files, or cannot be opened, and a
    document is of the shape that [save] and [set_current_env]
    write. *)

(** ** Lists: one occurrence removed, occurrences counted *)

Lemma occurrences_cons (p x : string) (l : list string) :
  occurrences p (x :: l) = (if decide (x = p) then 1 else 0) + occurrences p l.
Proof.
  unfold occurrences. rewrite filter_cons. by case_decide.
Qed.

Lemma occurrences_app (p : string) (l k : list string) :
  occurrences p (l ++ k) = occurrences p l + occurrences p k.
Proof. unfold occurrences. by rewrite filter_app, length_app. Qed.

Lemma occurrences_absent (p : string) (l : list string) :
  p ∉ l → occurrences p l = 0.
Proof.
  induction l as [|x l IH]; intros Hp; [done|].
  rewrite occurrences_cons, IH by (intros Hin; apply Hp, elem_of_cons; by right).
  rewrite decide_False; [done|].
  intros ->. apply Hp, elem_of_cons. by left.
Qed.

Lemma occurrences_NoDup (p : string) (l : list string) :
  NoDup l → p ∈ l → occurrences p l = 1.
Proof.
  induction 1 as [|x l Hx Hl IH]; intros Hp.
  - by apply elem_of_nil in Hp.
  - rewrite occurrences_cons.
    apply elem_of_cons in Hp as [->|Hp].
    + rewrite decide_True by done. by rewrite occurrences_absent.
    + rewrite decide_False by (by intros ->). by rewrite IH.
Qed.

Lemma occurrences_remove_first (p x : string) (l : list string) :
  x ∈ l →
  occurrences p (Env.remove_first x l)
  = occurrences p l - (if decide (x = p) then 1 else 0).
Proof.
  induction l as [|y l IH]; intros Hx.
  - by apply elem_of_nil in Hx.
  - simpl. destruct (decide (x = y)) as [->|Hne].
    + rewrite occurrences_cons. case_decide; lia.
    + apply elem_of_cons in Hx as [?|Hx]; [done|].
      rewrite !occurrences_cons, IH by done.
      destruct (decide (y = p)) as [->|]; [|done].
      rewrite decide_False by done. lia.
Qed.

Lemma remove_first_snoc (x : string) (l : list string) :
  x ∉ l → Env.remove_first x (l ++ [x]) = l.
Proof.
  induction l as [|y l IH]; intros Hx; simpl.
  - by rewrite decide_True.
  - rewrite decide_False by (intros ->; apply Hx, elem_of_cons; by left).
    by rewrite IH by (intros Hin; apply Hx, elem_of_cons; by right).
Qed.

Lemma elem_of_remove_first (q x : string) (l : list string) :
  q ∈ Env.remove_first x l → q ∈ l.
Proof.
  induction l as [|y l IH]; simpl; [done|].
  case_decide.
  - intros Hq. apply elem_of_cons. by right.
  - intros [->|Hq]%elem_of_cons; apply elem_of_cons; [by left|right; by apply IH].
Qed.

Lemma NoDup_remove_first (x : string) (l : list string) :
  NoDup l → NoDup (Env.remove_first x l) ∧ x ∉ Env.remove_first x l.
Proof.
  induction 1 as [|y l Hy Hl [IH1 IH2]]; simpl.
  - split; [constructor | apply not_elem_of_nil].
  - destruct (decide (x = y)) as [->|Hne]; [done|].
    split.
    + constructor; [|done]. intros Hin. by apply Hy, (elem_of_remove_first _ x).
    + intros [?|Hin]%elem_of_cons; [done|]. by apply IH2.
Qed.

(** ** The path list of an environment *)

Lemma Env_eta (self : Env.t) : Env.Make (Env.name self) (Env.env_paths self) = self.
Proof. by destruct self. Qed.

Lemma save_save (self self' : Env.t) (st : state) :
  Env.name self = Env.name self' →
  Env.save self (Env.save self' st) = Env.save self st.
Proof.
  intros Hname. unfold Env.save, set_records; simpl.
  by rewrite Hname, insert_insert_eq.
Qed.

Section PathList.
Variable resolve : string → string.

(** X2: adding a path that the list does not hold and then removing it
    (under any spelling that resolves to the same path) gives back the
    object as it was, and leaves in the file the list as it was. *)
Theorem add_path_then_remove_path (self : Env.t) (path path' : string) (st : state) :
  resolve path ∉ Env.env_paths self →
  resolve path' = resolve path →
  ∃ self1 st1,
    Env.add_path resolve self path st = (true, self1, st1) ∧
    Env.remove_path resolve self1 path' st1 = (true, self, Env.save self st).
Proof.
  intros Hout Hsame. eexists _, _. split.
  - unfold Env.add_path. by rewrite decide_True.
  - unfold Env.remove_path. rewrite Hsame; simpl.
    rewrite decide_True
      by (apply elem_of_app; right; by apply list_elem_of_singleton).
    rewrite remove_first_snoc by done.
    rewrite Env_eta. f_equal. by apply save_save.
Qed.

(** X3: a list without duplicates stays without duplicates under
    [add_path] and under [remove_path], and after [remove_path] it does
    not hold the resolved path. *)
Theorem path_list_stays_duplicate_free (self : Env.t) (path : string) (st : state) :
  NoDup (Env.env_paths self) →
  NoDup (Env.env_paths (Env.add_path resolve self path st).1.2) ∧
  NoDup (Env.env_paths (Env.remove_path resolve self path st).1.2) ∧
  resolve path ∉ Env.env_paths (Env.remove_path resolve self path st).1.2.
Proof.
  intros Hnodup. unfold Env.add_path, Env.remove_path.
  split; [|split].
  - case_decide as Hd; simpl; [|done].
    apply NoDup_app. split; [done|]. split; [|apply NoDup_singleton].
    intros x Hx ->%list_elem_of_singleton. done.
  - case_decide; simpl; [|done]. by apply NoDup_remove_first.
  - case_decide; simpl; [|done]. by apply NoDup_remove_first.
Qed.

(** X4: [remove_path] answers whether the list holds the resolved path;
    it takes away one occurrence of it and nothing else, writes the
    record when it did, and changes neither the object nor the state
    when it did not. *)
Theorem remove_path_one_occurrence (self : Env.t) (path : string) (st : state) :
  ∃ removed self' st',
    Env.remove_path resolve self path st = (removed, self', st') ∧
    removed = bool_decide (resolve path ∈ Env.env_paths self) ∧
    (if removed then Env.name self' = Env.name self ∧ st' = Env.save self' st
     else self' = self ∧ st' = st) ∧
    ∀ q, occurrences q (Env.env_paths self')
         = occurrences q (Env.env_paths self)
           - (if decide (resolve path = q) then 1 else 0).
Proof.
  unfold Env.remove_path. case_decide as Hd.
  - eexists true, _, _. split; [done|].
    split; [by rewrite bool_decide_eq_true_2|]. split; [done|].
    intros q. simpl. by apply occurrences_remove_first.
  - eexists false, _, _. split; [done|].
    split; [by rewrite bool_decide_eq_false_2|]. split; [done|].
    intros q. case_decide as Hq; [|lia].
    subst q. rewrite occurrences_absent by done. lia.
Qed.
End PathList.

Lemma add_path_then_remove_path_witness :
  ∃ self1 st1,
    Env.add_path id (Env.Make "t" ["/a"; "/b"]) "/c" st_two = (true, self1, st1) ∧
    Env.remove_path id self1 "/c" st1
    = (true, Env.Make "t" ["/a"; "/b"], Env.save (Env.Make "t" ["/a"; "/b"]) st_two).
Proof.
  apply (add_path_then_remove_path id (Env.Make "t" ["/a"; "/b"]) "/c" "/c" st_two).
  - apply (bool_decide_unpack _). by vm_compute.
  - reflexivity.
Defined.

Lemma path_list_stays_duplicate_free_witness :
  id "/a" ∉ Env.env_paths
              (Env.remove_path id (Env.Make "t" ["/a"; "/b"]) "/a" st_two).1.2.
Proof.
  apply (path_list_stays_duplicate_free id (Env.Make "t" ["/a"; "/b"]) "/a" st_two).
  apply (bool_decide_unpack _). by vm_compute.
Defined.

(** ** create and delete *)

Lemma state_eta (st : state) :
  State (records st) (pointer st) (PATH st) (scripts st) = st.
Proof. by destruct st. Qed.

Lemma create_fresh (name : string) (st : state) :
  name ≠ "base" → records st !! name = None →
  create name st
  = Returned ["Created environment: " +:+ name] (Env.save (Env.Make name []) st).
Proof.
  intros Hne Hnone. unfold create.
  rewrite decide_False by done.
  rewrite Env_init_total; simpl.
  rewrite decide_False by (by intros Hn).
  unfold stored_paths. by rewrite Hnone.
Qed.

Lemma create_existing (name : string) (st : state) :
  name ≠ "base" → is_Some (records st !! name) →
  create name st
  = Exited 1 ["Error: Environment '" +:+ name +:+ "' already exists"] st.
Proof.
  intros Hne [f Hf]. unfold create.
  rewrite decide_False by done.
  rewrite Env_init_total; simpl.
  by rewrite decide_True by congruence.
Qed.

(** X5: [create] refuses the name "base", and a plain name that has
    a record file, and then changes nothing.  For any other plain name
    it writes a record with that name and no paths, leaves every other
    record, the pointer and [PATH] alone, and a second [create] of the
    same name is refused. *)
Theorem create_outcomes (name : string) (st : state) :
  create "base" st
  = Exited 1 ["Error: Cannot create an environment named 'base'"] st ∧
  (plain name → name ≠ "base" → is_Some (records st !! name) →
   create name st
   = Exited 1 ["Error: Environment '" +:+ name +:+ "' already exists"] st) ∧
  (plain name → name ≠ "base" → records st !! name = None →
   ∃ st1,
     create name st = Returned ["Created environment: " +:+ name] st1 ∧
     records st1 !! name = Some (record_of name []) ∧
     (∀ other, other ≠ name → records st1 !! other = records st !! other) ∧
     pointer st1 = pointer st ∧ PATH st1 = PATH st ∧
     create name st1
     = Exited 1 ["Error: Environment '" +:+ name +:+ "' already exists"] st1).
Proof.
  split; [done|]. split; [intros _; apply create_existing|].
  intros _ Hne Hnone. eexists. split; [by apply create_fresh|].
  assert (records (Env.save (Env.Make name []) st) !! name
          = Some (record_of name [])) as Hrec
    by apply (save_lookup (Env.Make name []) st).
  split; [done|]. split.
  { intros other Hother. by apply (save_lookup_ne (Env.Make name [])). }
  split; [done|]. split; [done|].
  apply create_existing; [done|]. by rewrite Hrec.
Qed.

Lemma create_outcomes_witness :
  ∃ st1,
    create "dev" st_two = Returned ["Created environment: dev"] st1 ∧
    records st1 !! "dev" = Some (record_of "dev" []) ∧
    create "dev" st1 = Exited 1 ["Error: Environment 'dev' already exists"] st1.
Proof.
  destruct (create_outcomes "dev" st_two) as (_ & _ & Hfresh).
  destruct Hfresh as (st1 & Hc & Hrec & _ & _ & _ & Hagain);
    [reflexivity | discriminate | by vm_compute |].
  exists st1. split; [exact Hc|]. split; [exact Hrec | exact Hagain].
Defined.

(** X6: creating an environment and then deleting it, while another
    environment is the active one, gives back the state exactly. *)
Theorem create_then_delete (name current_env : string) (st : state) :
  name ≠ "base" → records st !! name = None →
  get_current_env_name st = Ok current_env → current_env ≠ name →
  and_then (create name st) (delete name)
  = Returned ["Created environment: " +:+ name; "Deleted environment: " +:+ name] st.
Proof.
  intros Hne Hnone Hcur Hother.
  rewrite create_fresh by done. simpl.
  rewrite (delete_inactive _ name current_env); try done.
  - simpl. f_equal. unfold unlink, Env.save, set_records; simpl.
    rewrite delete_insert_id by done. apply state_eta.
  - exists (record_of name []). apply (save_lookup (Env.Make name []) st).
Qed.

Lemma create_then_delete_witness :
  and_then (create "dev" st_active_t) (delete "dev")
  = Returned ["Created environment: dev"; "Deleted environment: dev"] st_active_t.
Proof.
  apply (create_then_delete "dev" "t" st_active_t).
  - discriminate.
  - by vm_compute.
  - reflexivity.
  - discriminate.
Defined.

(** X7: for a plain name, [delete] of a name without a record file
    exits with code 1 and changes nothing, and [delete] of an
    environment that is not the active one removes its record file and
    nothing else, after which the name can no longer be activated. *)
Theorem delete_other_environment (name current_env : string) (st : state) :
  plain name →
  (name ≠ "base" → records st !! name = None →
   delete name st
   = Exited 1 ["Error: Environment '" +:+ name +:+ "' does not exist"] st) ∧
  (name ≠ "base" → is_Some (records st !! name) →
   get_current_env_name st = Ok current_env → current_env ≠ name →
   ∃ st1,
     delete name st = Returned ["Deleted environment: " +:+ name] st1 ∧
     records st1 !! name = None ∧
     (∀ other, other ≠ name → records st1 !! other = records st !! other) ∧
     pointer st1 = pointer st ∧ PATH st1 = PATH st ∧
     ∀ export_shell,
       activate name export_shell st1
       = Exited 1 ["Error: Environment '" +:+ name +:+ "' does not exist"] st1).
Proof.
  intros _. split.
  - intros Hne Hnone. unfold delete.
    rewrite decide_False by done. by rewrite decide_True.
  - intros Hne Hsome Hcur Hother. eexists.
    split; [by apply (delete_inactive st name current_env)|].
    assert (records (unlink name st) !! name = None) as Hgone
      by apply lookup_delete_eq.
    split; [done|]. split.
    { intros other Ho. by apply lookup_delete_ne. }
    split; [done|]. split; [done|].
    intros export_shell. unfold activate. by rewrite decide_True.
Qed.

Lemma delete_other_environment_witness :
  ∃ st1,
    delete "ci" st_dev_ci = Returned ["Deleted environment: ci"] st1 ∧
    records st1 !! "ci" = None ∧
    activate "ci" ExportNone st1
    = Exited 1 ["Error: Environment 'ci' does not exist"] st1.
Proof.
  destruct (delete_other_environment "ci" "base" st_dev_ci eq_refl) as [_ Hdel].
  destruct Hdel as (st1 & Hd & Hgone & _ & _ & _ & Hact);
    [discriminate | by eexists | reflexivity | discriminate |].
  exists st1. split; [exact Hd|]. split; [exact Hgone | apply Hact].
Defined.

(** ** Joining what was split *)

Lemma join_cons_char (c : ascii) (w : string) (ws : list string) :
  join (String c w :: ws) = String c (join (w :: ws)).
Proof. by destruct ws. Qed.

Lemma join_split (s : string) : join (split s) = s.
Proof.
  induction s as [|c s IH]; [done|]. simpl.
  pose proof (split_nonempty s) as Hne.
  destruct (split s) as [|w ws] eqn:Hs; [done|].
  case_decide as Hc.
  - subst c. simpl in *. by rewrite IH.
  - rewrite join_cons_char. by rewrite IH.
Qed.

(** ** reset *)

Lemma reset_returns (st : state) :
  reset st
  = Returned ["Reset to base environment and cleared all paths"]
      (Env.save (Env.Make "base" []) (set_current_env "base" st)).
Proof. unfold reset. by rewrite Env_init_total. Qed.

(** X8: after [reset] the pointer reads "base" and the record of
    "base" holds no paths, while every other record and the value of
    [PATH] are what they were: the paths that were applied stay
    applied. *)
Theorem reset_clears_base_only (st : state) :
  ∃ st1,
    reset st = Returned ["Reset to base environment and cleared all paths"] st1 ∧
    get_current_env_name st1 = Ok "base" ∧
    records st1 !! "base" = Some (record_of "base" []) ∧
    (∀ other, other ≠ "base" → records st1 !! other = records st !! other) ∧
    PATH st1 = PATH st.
Proof.
  eexists. split; [apply reset_returns|].
  split; [done|]. split; [apply (save_lookup (Env.Make "base" []))|].
  split; [|done].
  intros other Hother.
  by rewrite (save_lookup_ne (Env.Make "base" [])) by done.
Qed.

(** X9: an entry of [PATH] that no record other than that of "base"
    stores is kept by every in-process activation that follows a
    [reset]: once [reset] has emptied the record of "base", its former
    paths are no longer in the union path set. *)
Theorem reset_then_activate_keeps (st : state) (name p : string) :
  env_exists st name →
  p ∈ current_path st →
  (∀ other f, other ≠ "base" → records st !! other = Some f → p ∉ readable_paths f) →
  ∃ out1 st1 out2 st2 L,
    reset st = Returned out1 st1 ∧
    activate name ExportNone st1 = Returned out2 st2 ∧
    activate_path_list name st1 = Some L ∧
    PATH st2 = Some (join L) ∧
    p ∈ L.
Proof.
  intros Hex Hp Hothers.
  set (st1 := Env.save (Env.Make "base" []) (set_current_env "base" st)).
  assert (env_exists st1 name) as Hex1.
  { destruct Hex as [->|[f Hf]]; [by left|]. right.
    destruct (decide (name = "base")) as [->|Hne].
    - unfold st1. rewrite (save_lookup (Env.Make "base" [])). by eexists.
    - unfold st1. rewrite (save_lookup_ne (Env.Make "base" [])) by done.
      by eexists. }
  eexists _, st1, _, _, _.
  split; [apply reset_returns|].
  split; [by apply activate_in_process|].
  split; [apply activate_path_list_total|]. split; [done|].
  apply elem_of_insert_front. right.
  apply list_elem_of_filter. split; [|done].
  intros (n & f & Hf & Hin)%glob_path_set_subseteq%elem_of_union_path_set.
  destruct (decide (n = "base")) as [->|Hne].
  - unfold st1 in Hf. rewrite (save_lookup (Env.Make "base" [])) in Hf.
    injection Hf as <-. by apply elem_of_nil in Hin.
  - unfold st1 in Hf. rewrite (save_lookup_ne (Env.Make "base" [])) in Hf by done.
    by apply (Hothers n f).
Qed.

Lemma reset_then_activate_keeps_witness :
  ∃ out1 st1 out2 st2 L,
    reset st_base_paths = Returned out1 st1 ∧
    activate "base" ExportNone st1 = Returned out2 st2 ∧
    activate_path_list "base" st1 = Some L ∧
    PATH st2 = Some (join L) ∧
    "/b" ∈ L.
Proof.
  apply (reset_then_activate_keeps st_base_paths "base" "/b").
  - by left.
  - apply (bool_decide_unpack _). by vm_compute.
  - intros other f Hother Hf. exfalso. unfold st_base_paths in Hf; simpl in Hf.
    apply lookup_insert_Some in Hf as [[? _]|[_ Hf]]; [done|].
    by rewrite lookup_empty in Hf.
Defined.

(** ** deactivate *)

Lemma remove_each_occurrences (p : string) (env_paths current : list string) :
  occurrences p (remove_each current env_paths)
  = occurrences p current - occurrences p env_paths.
Proof.
  revert current. induction env_paths as [|x env_paths IH]; intros current.
  - unfold occurrences at 3. simpl. unfold remove_each. simpl. lia.
  - change (remove_each current (x :: env_paths))
      with (remove_each
              (if decide (x ∈ current) then Env.remove_first x current else current)
              env_paths).
    rewrite IH, occurrences_cons.
    case_decide as Hin.
    + rewrite occurrences_remove_first by done. lia.
    + destruct (decide (x = p)) as [->|]; [|lia].
      rewrite occurrences_absent by done. lia.
Qed.

Lemma remove_each_absent (env_paths current : list string) :
  (∀ p, p ∈ env_paths → p ∉ current) → remove_each current env_paths = current.
Proof.
  induction env_paths as [|x env_paths IH]; intros Hall; [done|].
  unfold remove_each; simpl.
  rewrite decide_False by (apply Hall, elem_of_cons; by left).
  apply IH. intros p Hp. apply Hall, elem_of_cons. by right.
Qed.

Lemma deactivate_returns (name : string) (st : state) :
  deactivate name st
  = Returned []
      (set_PATH (join (remove_each (current_path st) (stored_paths st name))) st).
Proof. unfold deactivate. by rewrite Env_init_total. Qed.

(** X10: [deactivate] leaves the records and the pointer alone, and
    in the list it joins into [PATH] every string occurs as often as in
    the ambient list less the number of times the environment stores
    it (never below zero): one occurrence is taken away per stored
    occurrence, not all of them. *)
Theorem deactivate_removes_one_each (name : string) (st : state) :
  ∃ L st1,
    deactivate name st = Returned [] st1 ∧
    PATH st1 = Some (join L) ∧
    records st1 = records st ∧ pointer st1 = pointer st ∧
    ∀ p, occurrences p L
         = occurrences p (current_path st) - occurrences p (stored_paths st name).
Proof.
  eexists _, _. split; [apply deactivate_returns|].
  split; [done|]. split; [done|]. split; [done|].
  intros p. apply remove_each_occurrences.
Qed.

(** X11: when [PATH] holds none of the environment's stored paths,
    [deactivate] leaves in [PATH] the value it had (the empty string
    when it was not set). *)
Theorem deactivate_nothing_applied (name : string) (st : state) :
  (∀ p, p ∈ stored_paths st name → p ∉ current_path st) →
  deactivate name st = Returned [] (set_PATH (path_value st) st).
Proof.
  intros Hnone. rewrite deactivate_returns.
  rewrite remove_each_absent by done.
  unfold current_path. by rewrite join_split.
Qed.

Lemma deactivate_nothing_applied_witness :
  deactivate "t" st_two = Returned [] (set_PATH "/usr/bin" st_two).
Proof.
  apply (deactivate_nothing_applied "t" st_two).
  intros p Hp. apply (bool_decide_unpack _).
  change (stored_paths st_two "t") with ["/a"; "/b"] in Hp.
  apply elem_of_cons in Hp as [->|Hp]; [by vm_compute|].
  apply list_elem_of_singleton in Hp as ->. by vm_compute.
Defined.

(** ** More on activation *)

(** X12: after an in-process activation of a target of plain name,
    every stored path of the target occurs exactly once in the list
    joined into [PATH], however often the ambient list or the record
    held it. *)
Theorem activation_target_paths_once (st : state) (name : string) :
  plain name → env_exists st name →
  ∃ out st1 L,
    activate name ExportNone st = Returned out st1 ∧
    PATH st1 = Some (join L) ∧
    activate_path_list name st = Some L ∧
    ∀ p, p ∈ stored_paths st name → occurrences p L = 1.
Proof.
  intros Hplain Hex. eexists _, _, _.
  split; [by apply activate_in_process|]. split; [done|].
  split; [apply activate_path_list_total|].
  intros p Hp. rewrite new_path_list_glob, occurrences_app by done.
  rewrite (occurrences_NoDup p (remove_dups _)).
  - rewrite occurrences_absent; [done|].
    intros [Hout _]%list_elem_of_filter.
    by apply Hout, (stored_paths_in_glob st name).
  - apply NoDup_remove_dups.
  - by apply elem_of_remove_dups, elem_of_reverse.
Qed.

Lemma activation_target_paths_once_witness :
  ∃ out st1 L,
    activate "t" ExportNone st_repeated = Returned out st1 ∧
    PATH st1 = Some (join L) ∧
    activate_path_list "t" st_repeated = Some L ∧
    ∀ p, p ∈ stored_paths st_repeated "t" → occurrences p L = 1.
Proof.
  apply (activation_target_paths_once st_repeated "t").
  - reflexivity.
  - right. by eexists.
Defined.

(** X13: activating an environment that stores no paths, when no entry
    of [PATH] is stored by any record, leaves in [PATH] the value it
    had (the empty string when it was not set). *)
Theorem activation_nothing_to_do (st : state) (name : string) :
  env_exists st name →
  stored_paths st name = [] →
  (∀ p, p ∈ current_path st → p ∉ union_path_set st) →
  ∃ out,
    activate name ExportNone st
    = Returned out (set_PATH (path_value st) (set_current_env name st)).
Proof.
  intros Hex Hempty Hclean. eexists.
  rewrite (activate_in_process st name Hex).
  rewrite Hempty. unfold new_path_list. simpl.
  rewrite filter_outside_all
    by (intros p Hp Hin; by apply (Hclean p Hp), glob_path_set_subseteq).
  unfold current_path. by rewrite join_split.
Qed.

Lemma activation_nothing_to_do_witness :
  ∃ out,
    activate "base" ExportNone st_two
    = Returned out (set_PATH "/usr/bin" (set_current_env "base" st_two)).
Proof.
  apply (activation_nothing_to_do st_two "base").
  - by left.
  - reflexivity.
  - intros p Hp. apply list_elem_of_singleton in Hp as ->.
    apply (bool_decide_unpack _). by vm_compute.
Defined.

(** ** addpath, removepath and current *)

Lemma stored_paths_save (self : Env.t) (st : state) :
  stored_paths (Env.save self st) (Env.name self) = Env.env_paths self.
Proof. unfold stored_paths. by rewrite save_lookup. Qed.

Lemma current_reports (st : state) (current_env : string) :
  get_current_env_name st = Ok current_env →
  current st
  = Returned
      (("Current env: " +:+ current_env)
       :: match stored_paths st current_env with
          | [] => []
          | paths =>
              (newline +:+ "Paths in this environment:")
              :: map (λ p, "  - " +:+ p) paths
          end)
      st.
Proof.
  intros Hcur. unfold current. rewrite Hcur; simpl.
  by rewrite Env_init_total.
Qed.

Section PathCommands.
Variable resolve : string → string.
Variable path_exists : string → bool.

Lemma addpath_fresh (path current_env : string) (st : state) :
  path_exists path = true →
  get_current_env_name st = Ok current_env →
  resolve path ∉ stored_paths st current_env →
  addpath resolve path_exists path st
  = Returned
      ["Added path '" +:+ resolve path +:+ "' to environment '" +:+ current_env +:+ "'"]
      (let st1 := Env.save (Env.Make current_env
                              (stored_paths st current_env ++ [resolve path])) st in
       if decide (resolve path ∉ current_path st) then
         set_PATH (resolve path +:+ String pathsep (path_value st)) st1
       else st1).
Proof.
  intros Hexists Hcur Hout. unfold addpath.
  rewrite Hexists, Hcur; simpl. rewrite Env_init_total; simpl.
  unfold Env.add_path; simpl. by rewrite decide_True.
Qed.


(** X16: for a path that exists and that the current environment, of
    plain name, does not store, [addpath] appends the resolved path to
    the stored list of the environment that the pointer names,
    creating the record when there is none; it leaves the other
    records and the pointer alone, and, when the resolved path holds no
    separator, the path is an entry of [PATH] afterwards. *)
Theorem addpath_appends (path current_env : string) (st : state) :
  plain current_env →
  path_exists path = true →
  get_current_env_name st = Ok current_env →
  resolve path ∉ stored_paths st current_env →
  ∃ out st1,
    addpath resolve path_exists path st = Returned out st1 ∧
    records st1 !! current_env
    = Some (record_of current_env (stored_paths st current_env ++ [resolve path])) ∧
    (∀ other, other ≠ current_env → records st1 !! other = records st !! other) ∧
    pointer st1 = pointer st ∧
    (no_sep (resolve path) → resolve path ∈ current_path st1).
Proof.
  intros _ Hexists Hcur Hout. eexists _, _.
  split; [by apply addpath_fresh|]. simpl.
  case_decide as Hpath; simpl.
  - split; [apply (save_lookup (Env.Make current_env _))|].
    split; [intros other Ho; by apply (save_lookup_ne (Env.Make current_env _))|].
    split; [done|].
    intros Hsep. unfold current_path; simpl.
    rewrite split_app_sep by done. apply elem_of_cons. by left.
  - split; [apply (save_lookup (Env.Make current_env _))|].
    split; [intros other Ho; by apply (save_lookup_ne (Env.Make current_env _))|].
    split; [done|].
    intros _. exact Hpath.
Qed.


(** X18: after such an [addpath], [current] prints the name of the
    current environment and then its stored paths in stored order, the
    new path last; [current] changes nothing. *)
Theorem addpath_then_current (path current_env : string) (st : state) :
  path_exists path = true →
  get_current_env_name st = Ok current_env →
  resolve path ∉ stored_paths st current_env →
  ∃ out st1,
    addpath resolve path_exists path st = Returned out st1 ∧
    current st1
    = Returned
        (("Current env: " +:+ current_env)
         :: (newline +:+ "Paths in this environment:")
         :: map (λ p, "  - " +:+ p) (stored_paths st current_env ++ [resolve path]))
        st1.
Proof.
  intros Hexists Hcur Hout. eexists _, _.
  split; [by apply addpath_fresh|]. simpl.
  assert (∀ st1, records st1 = records (Env.save (Env.Make current_env
                   (stored_paths st current_env ++ [resolve path])) st) →
                 stored_paths st1 current_env
                 = stored_paths st current_env ++ [resolve path]) as Hstored.
  { intros st1 Hrec. unfold stored_paths. rewrite Hrec.
    by rewrite (save_lookup (Env.Make current_env _) st). }
  case_decide.
  all: rewrite (current_reports _ current_env) by done.
  all: rewrite Hstored by done.
  all: by destruct (stored_paths st current_env).
Qed.
End PathCommands.

Lemma addpath_appends_witness :
  ∃ out st1,
    addpath id (λ _, true) "/c" st_active_t = Returned out st1 ∧
    records st1 !! "t" = Some (record_of "t" ["/a"; "/b"; "/c"]) ∧
    id "/c" ∈ current_path st1.
Proof.
  destruct (addpath_appends id (λ _, true) "/c" "t" st_active_t)
    as (out & st1 & Hadd & Hrec & _ & _ & Hpath).
  - reflexivity.
  - reflexivity.
  - reflexivity.
  - apply (bool_decide_unpack _). by vm_compute.
  - exists out, st1. split; [exact Hadd|]. split; [exact Hrec|].
    apply Hpath. reflexivity.
Defined.


Lemma addpath_then_current_witness :
  ∃ out st1,
    addpath id (λ _, true) "/c" st_active_t = Returned out st1 ∧
    current st1
    = Returned
        ["Current env: t"; newline +:+ "Paths in this environment:";
         "  - /a"; "  - /b"; "  - /c"]
        st1.
Proof.
  apply (addpath_then_current id (λ _, true) "/c" "t" st_active_t).
  - reflexivity.
  - reflexivity.
  - apply (bool_decide_unpack _). by vm_compute.
Defined.

(** ** The entry point *)

Lemma main_block_readable (st : state) :
  pointer st ≠ Some Unreadable →
  main_block st
  = Returned []
      (let st1 := match pointer st with
                  | Some _ => st
                  | None => set_current_env "base" st
                  end in
       if decide (records st1 !! "base" = None)
       then Env.save (Env.Make "base" []) st1 else st1).
Proof.
  intros Hread. unfold main_block.
  destruct (pointer st) as [[|[| |n]]|] eqn:Hp; try done; simpl.
  all: rewrite Env_init_total; simpl.
  all: case_decide as Hb; [|done].
  all: unfold stored_paths; simpl; by rewrite Hb.
Qed.

(** X19: when the pointer file is missing, or is a text file that can
    be opened, the entry block returns without printing; afterwards
    the pointer file and the record of "base" exist, the pointer reads
    what it read before, no record that existed has changed, no other
    record was written and [PATH] is what it was.  Running the block
    again changes nothing. *)
Theorem main_block_prepares_registry (st : state) :
  pointer st ≠ Some Unreadable →
  ∃ st1,
    main_block st = Returned [] st1 ∧
    is_Some (pointer st1) ∧
    is_Some (records st1 !! "base") ∧
    get_current_env_name st1 = get_current_env_name st ∧
    (∀ n, is_Some (records st !! n) ∨ n ≠ "base" →
          records st1 !! n = records st !! n) ∧
    PATH st1 = PATH st ∧
    main_block st1 = Returned [] st1.
Proof.
  intros Hread. eexists. split; [by apply main_block_readable|].
  set (st0 := match pointer st with Some _ => st | None => set_current_env "base" st end).
  assert (records st0 = records st) as Hrec by (unfold st0; by destruct (pointer st)).
  assert (PATH st0 = PATH st) as Hpath by (unfold st0; by destruct (pointer st)).
  assert (is_Some (pointer st0)) as Hptr.
  { unfold st0. destruct (pointer st) as [c|] eqn:Hp.
    - rewrite Hp. by exists c.
    - simpl. by eexists. }
  assert (pointer st0 ≠ Some Unreadable) as Hread0.
  { unfold st0. destruct (pointer st) as [c|] eqn:Hp; simpl; [by rewrite Hp|done]. }
  assert (get_current_env_name st0 = get_current_env_name st) as Hcur.
  { unfold st0, get_current_env_name.
    destruct (pointer st) as [c|] eqn:Hp; simpl; [by rewrite Hp|done]. }
  cbv zeta. case_decide as Hb.
  - split; [done|].
    split; [rewrite (save_lookup (Env.Make "base" [])); by eexists|].
    split; [done|]. split.
    { intros n [[f Hf]|Hn].
      - rewrite (save_lookup_ne (Env.Make "base" [])); [by rewrite Hrec|].
        simpl. intros <-. rewrite Hrec in Hb. congruence.
      - rewrite (save_lookup_ne (Env.Make "base" [])) by done. by rewrite Hrec. }
    split; [done|].
    rewrite main_block_readable by done. simpl.
    destruct Hptr as [c Hc]. rewrite Hc.
    rewrite decide_False; [done|].
    by rewrite (save_lookup (Env.Make "base" [])).
  - split; [done|].
    split; [by destruct (records st0 !! "base"); [eexists|]|].
    split; [done|]. split; [intros n _; by rewrite Hrec|].
    split; [done|].
    rewrite main_block_readable by done. simpl.
    destruct Hptr as [c Hc]. rewrite Hc.
    by rewrite decide_False.
Qed.

Lemma main_block_prepares_registry_witness :
  ∃ st1,
    main_block st_fresh = Returned [] st1 ∧
    is_Some (pointer st1) ∧ is_Some (records st1 !! "base").
Proof.
  destruct (main_block_prepares_registry st_fresh) as (st1 & Hrun & Hp & Hb & _);
    [discriminate|].
  exists st1. split; [exact Hrun|]. split; [exact Hp | exact Hb].
Defined.

(** X20: when the pointer file exists and cannot be opened, the entry
    block ends in [OSError], so no command is ever reached, although
    [get_current_env_name] would have answered "base". *)
Theorem main_block_unreadable_pointer (st : state) (command : state → outcome) :
  pointer st = Some Unreadable →
  main_block st = Uncaught OSError [] st ∧
  main command st = Uncaught OSError [] st ∧
  get_current_env_name st = Ok "base".
Proof.
  intros Hp. unfold main, main_block, get_current_env_name. by rewrite Hp.
Qed.

Lemma main_block_unreadable_pointer_witness :
  main (activate "base" ExportNone) (set_pointer (Some Unreadable) st_two)
  = Uncaught OSError [] (set_pointer (Some Unreadable) st_two).
Proof.
  apply (main_block_unreadable_pointer (set_pointer (Some Unreadable) st_two)).
  reflexivity.
Defined.

(** X21: [clone] with "base" as source exits with code 1 when
    [base.json] is missing, although "base" can then be activated; run
    through the entry point, which writes the missing [base.json], the
    same [clone] returns and the target stores what "base" stored. *)
Theorem clone_from_base (st : state) (target : string) :
  target ≠ "base" →
  (records st !! "base" = None →
   clone "base" target st
   = Exited 1 ["Error: Environment 'base' does not exist"] st ∧
   ∃ out st1, activate "base" ExportNone st = Returned out st1) ∧
  (pointer st ≠ Some Unreadable →
   ∃ out st1,
     main (clone "base" target) st = Returned out st1 ∧
     records st1 !! target = Some (record_of target (stored_paths st "base"))).
Proof.
  intros Hne. split.
  - intros Hnone. split.
    + unfold clone. rewrite decide_False by done.
      rewrite !Env_init_total; simpl. by rewrite decide_True.
    + eexists _, _. apply activate_in_process. by left.
  - intros Hread. unfold main.
    rewrite main_block_readable by done. simpl.
    set (st0 := match pointer st with Some _ => st | None => set_current_env "base" st end).
    assert (records st0 = records st) as Hrec by (unfold st0; by destruct (pointer st)).
    case_decide as Hb.
    + rewrite clone_returns;
        [|done|rewrite (save_lookup (Env.Make "base" [])); by eexists].
      eexists _, _. split; [done|].
      rewrite (save_lookup (Env.Make target _)).
      rewrite (stored_paths_save (Env.Make "base" [])).
      unfold stored_paths. rewrite <- Hrec, Hb. done.
    + rewrite clone_returns; [|done|by destruct (records st0 !! "base"); [eexists|]].
      eexists _, _. split; [done|].
      rewrite (save_lookup (Env.Make target _)).
      unfold stored_paths. by rewrite Hrec.
Qed.

Lemma clone_from_base_witness :
  clone "base" "copy" st_two
  = Exited 1 ["Error: Environment 'base' does not exist"] st_two ∧
  ∃ out st1,
    main (clone "base" "copy") st_two = Returned out st1 ∧
    records st1 !! "copy" = Some (record_of "copy" []).
Proof.
  destruct (clone_from_base st_two "copy") as [Hbare Hmain]; [discriminate|].
  split.
  - apply Hbare. by vm_compute.
  - apply Hmain. discriminate.
Defined.

(** ** info and the plain listing *)

Section InfoProperties.
Variable ENV_BASE_DIR : string.
Variable ENV_MANAGER_HOME : option string.
Variable XDG_CONFIG_HOME : option string.

(** X22: when every record file lies in the registry directory itself
    and none is the file of the empty name, the listing with
    [--names-only] prints "base" and then, once each, the stem of every
    other record file, whether the file is a valid record or not, and
    changes nothing. *)
Theorem names_only_lists_every_stem (st : state) :
  (∀ n, is_Some (records st !! n) → plain n ∧ n ≠ "") →
  ∃ names,
    list_command ENV_BASE_DIR true st = Returned ("base" :: names) st ∧
    NoDup names ∧
    ∀ stem, stem ∈ names ↔ stem ≠ "base" ∧ is_Some (records st !! stem).
Proof.
  intros _.
  destruct (get_current_env_name_total st) as [current_env Hcur].
  eexists. split.
  { unfold list_command. by rewrite Hcur. }
  split.
  { apply NoDup_filter. apply (NoDup_fst_map_to_list (records st)). }
  intros stem. rewrite list_elem_of_filter, list_elem_of_fmap. split.
  - intros (Hne & [n f] & -> & Hin). split; [done|].
    apply elem_of_map_to_list in Hin. by eexists.
  - intros (Hne & f & Hf). split; [done|].
    exists (stem, f). split; [done|]. by apply elem_of_map_to_list.
Qed.

End InfoProperties.

Lemma names_only_lists_every_stem_witness :
  ∃ names,
    list_command "/envs" true st_dev_ci = Returned ("base" :: names) st_dev_ci ∧
    NoDup names ∧
    ∀ stem, stem ∈ names ↔ stem ≠ "base" ∧ is_Some (records st_dev_ci !! stem).
Proof.
  apply (names_only_lists_every_stem "/envs" st_dev_ci).
  intros n [f Hf]. unfold st_dev_ci in Hf; simpl in Hf.
  apply lookup_insert_Some in Hf as [[<- _]|[_ Hf]]; [done|].
  apply lookup_insert_Some in Hf as [[<- _]|[_ Hf]]; [done|].
  by rewrite lookup_empty in Hf.
Defined.

(** ** Cloning a record that is not JSON *)

(** X24: [clone] from a source whose record file exists but cannot be
    opened, is blank or is not JSON returns all the same and writes a
    target record without paths. *)
Theorem clone_of_unparsed_source (source target : string) (f : file config)
    (st : state) :
  target ≠ "base" →
  records st !! source = Some f →
  f = Unreadable ∨ f = Content Blank ∨ f = Content Garbage →
  ∃ out st1,
    clone source target st = Returned out st1 ∧
    records st1 !! target = Some (record_of target []).
Proof.
  intros Hne Hf Hbad. eexists _, _.
  split; [apply clone_returns; [done|by eexists]|].
  rewrite (save_lookup (Env.Make target _)); simpl.
  unfold stored_paths. rewrite Hf; simpl.
  by destruct Hbad as [->|[->| ->]].
Qed.

Lemma clone_of_unparsed_source_witness :
  ∃ out st1,
    clone "broken" "dev" st_mixed = Returned out st1 ∧
    records st1 !! "dev" = Some (record_of "dev" []).
Proof.
  apply (clone_of_unparsed_source "broken" "dev" (Content Garbage) st_mixed).
  - discriminate.
  - by vm_compute.
  - right; right; reflexivity.
Defined.
